(** * v_sokoban: from XSB boards to SMV models and back

    A shallow embedding of [v_sokoban.py]: the board parser
    [parse_xsb_board], the predicate builders [gen_in_bounds],
    [gen_not_wall], [gen_not_box], [gen_free_cell], [gen_box_at], the model
    synthesizer [generate_smv_model] and the trace decoder
    [extract_solution].

    Python strings are modelled by [string]; a character is a code point
    below 256.  Python integers are [Z].  The model text is built, as in
    the source, by concatenating strings; module [SMV] gives the emitted
    fragments a syntax tree, a printer and an evaluator, and the printer is
    proved to produce the very strings of the source. *)

From Stdlib Require Import ZArith List Bool Lia.
From Stdlib Require Import Strings.String Strings.Ascii Numbers.DecimalString.
From Stdlib Require Import Sorting.Sorted Sorting.Permutation.
Import ListNotations.

Open Scope list_scope.
Open Scope Z_scope.
Open Scope string_scope.

(** ** Python primitives used by the program *)

Module Py.

(** The line feed character. *)
Definition LF : ascii := "010"%char.

Definition nl : string := String LF "".

(** [str(n)] for an integer: decimal digits, a leading minus sign for a
    negative number. *)
Definition str (z : Z) : string := NilZero.string_of_int (Z.to_int z).

(** [c.isspace()] on code points below 256: tab, line feed, vertical tab,
    form feed, carriage return, the four separators 28..31, space, NEL and
    the no-break space.  The regular expression class [\s] is the same
    set. *)
Definition isspace (c : ascii) : bool :=
  let n := nat_of_ascii c in
  ((9 <=? n) && (n <=? 13) || (28 <=? n) && (n <=? 32)
   || (n =? 133) || (n =? 160))%nat.

(** [s.lstrip()], [s.rstrip()], [s.strip()]. *)
Fixpoint lstrip (s : string) : string :=
  match s with
  | "" => ""
  | String c s' => if isspace c then lstrip s' else s
  end.

Fixpoint rstrip (s : string) : string :=
  match s with
  | "" => ""
  | String c s' =>
      let r := rstrip s' in
      if (r =? "") && isspace c then "" else String c r
  end.

Definition strip (s : string) : string := rstrip (lstrip s).

(** [s.rstrip("\n")]. *)
Fixpoint rstrip_nl (s : string) : string :=
  match s with
  | "" => ""
  | String c s' =>
      let r := rstrip_nl s' in
      if (r =? "") && Ascii.eqb c LF then "" else String c r
  end.

(** [n] spaces. *)
Fixpoint spaces (n : nat) : string :=
  match n with
  | O => ""
  | S k => String " " (spaces k)
  end.

(** [s.ljust(w)]: [s] padded on the right with spaces up to length [w]. *)
Definition ljust (s : string) (w : nat) : string :=
  s ++ spaces (w - String.length s).

(** [s.split(sep)] for a separator of one character. *)
Fixpoint split (sep : ascii) (s : string) : list string :=
  match s with
  | "" => [""]
  | String c s' =>
      if Ascii.eqb c sep then "" :: split sep s'
      else match split sep s' with
           | [] => [String c ""]
           | l :: ls => String c l :: ls
           end
  end.

(** [pat in s]: [pat] occurs in [s] as a substring. *)
Fixpoint contains (pat s : string) : bool :=
  String.prefix pat s ||
  match s with
  | "" => false
  | String _ s' => contains pat s'
  end.

(** Iterating over a text file: the lines of the content, each with its
    line feed (the last one may have none). *)
Fixpoint file_lines (s : string) : list string :=
  match s with
  | "" => []
  | String c s' =>
      if Ascii.eqb c LF then String c "" :: file_lines s'
      else match file_lines s' with
           | [] => [String c ""]
           | l :: ls => String c l :: ls
           end
  end.

(** [enumerate(l, start)]. *)
Fixpoint enumerate {A : Type} (start : Z) (l : list A) : list (Z * A) :=
  match l with
  | [] => []
  | a :: l' => (start, a) :: enumerate (start + 1) l'
  end.

(** [max] of a non-empty sequence of lengths; the empty sequence raises. *)
Definition max_len (l : list string) : option nat :=
  match l with
  | [] => None
  | s :: l' =>
      Some (fold_left Nat.max (map String.length l') (String.length s))
  end.

(** [l[-1]]: the last element. *)
Definition last_item (l : list string) : string := List.last l "".

(** [range(1, n+1)]. *)
Definition range1 (n : nat) : list Z := map Z.of_nat (seq 1 n).

(** The exceptions the program can raise on its own. *)
Inductive exn : Type :=
| ValueError
| TypeError.

Inductive result (A : Type) : Type :=
| Ok (a : A)
| Raise (e : exn).

Arguments Ok {A} a.
Arguments Raise {A} e.

End Py.

Import Py.

(** ** Predicate builders (lines 9 to 42) *)

(** The cell is within the board. *)
Definition gen_in_bounds (expr_x expr_y : string) : string :=
  "(" ++ expr_x ++ " >= 0 & " ++ expr_x ++ " < WIDTH & "
      ++ expr_y ++ " >= 0 & " ++ expr_y ++ " < HEIGHT)".

(** The cell is not a wall.  [walls] lists the wall set in the order the
    interpreter iterates over it. *)
Definition gen_not_wall (expr_x expr_y : string) (walls : list (Z * Z))
  : string :=
  match walls with
  | [] => "TRUE"
  | _ =>
      let conds :=
        map (fun w : Z * Z =>
               "!((" ++ expr_x ++ " = " ++ str (fst w) ++ ") & ("
                     ++ expr_y ++ " = " ++ str (snd w) ++ "))") walls in
      "(" ++ String.concat " & " conds ++ ")"
  end.

(** The condition that box [i] is at the cell, shared by [gen_not_box] and
    [gen_box_at]. *)
Definition box_cond (expr_x expr_y : string) (i : Z) : string :=
  "((" ++ expr_x ++ " = box_x[" ++ str i ++ "]) & ("
       ++ expr_y ++ " = box_y[" ++ str i ++ "]))".

(** The cell holds no box. *)
Definition gen_not_box (expr_x expr_y : string) (num_boxes : nat) : string :=
  match num_boxes with
  | O => "TRUE"
  | _ =>
      let conditions := map (box_cond expr_x expr_y) (range1 num_boxes) in
      "!(" ++ String.concat " | " conditions ++ ")"
  end.

(** The cell is free: in bounds, not a wall, not occupied by a box. *)
Definition gen_free_cell (expr_x expr_y : string) (walls : list (Z * Z))
  (num_boxes : nat) : string :=
  "(" ++ gen_in_bounds expr_x expr_y ++ " & "
      ++ gen_not_wall expr_x expr_y walls ++ " & "
      ++ gen_not_box expr_x expr_y num_boxes ++ ")".

(** A box is at the cell. *)
Definition gen_box_at (expr_x expr_y : string) (num_boxes : nat) : string :=
  match num_boxes with
  | O => "FALSE"
  | _ =>
      let conditions := map (box_cond expr_x expr_y) (range1 num_boxes) in
      "(" ++ String.concat " | " conditions ++ ")"
  end.

(** ** The board and its parser (lines 45 to 70) *)

(** The dictionary returned by the parser.  [walls] is a Python set: the
    list gives its elements in iteration order, which the parser model
    takes to be insertion order; no statement below depends on that
    choice without saying so. *)
Record Board : Type := mkBoard {
  board : list (list ascii);
  width : Z;
  height : Z;
  walls : list (Z * Z);
  targets : list (Z * Z);
  boxes : list (Z * Z);
  player : option (Z * Z)
}.

Definition pos_eqb (p q : Z * Z) : bool :=
  (fst p =? fst q)%Z && (snd p =? snd q)%Z.

(** [walls.add(p)]. *)
Definition set_add (p : Z * Z) (s : list (Z * Z)) : list (Z * Z) :=
  if existsb (pos_eqb p) s then s else s ++ [p].

(** [ch in [...]]. *)
Definition in_chars (ch : ascii) (l : list ascii) : bool :=
  existsb (Ascii.eqb ch) l.

(** The body of the inner loop, for the character [ch] of column [x] in
    row [y]. *)
Definition scan_cell (y : Z) (st : Board) (xc : Z * ascii) : Board :=
  let x := fst xc in
  let ch := snd xc in
  let st1 :=
    if Ascii.eqb ch "#" then
      mkBoard (board st) (width st) (height st) (set_add (x, y) (walls st))
              (targets st) (boxes st) (player st)
    else if in_chars ch ["."; "+"; "*"]%char then
      mkBoard (board st) (width st) (height st) (walls st)
              (targets st ++ [(x, y)]) (boxes st) (player st)
    else st in
  let st2 :=
    if in_chars ch ["$"; "*"]%char then
      mkBoard (board st1) (width st1) (height st1) (walls st1)
              (targets st1) (boxes st1 ++ [(x, y)]) (player st1)
    else st1 in
  if in_chars ch ["@"; "+"]%char then
    mkBoard (board st2) (width st2) (height st2) (walls st2)
            (targets st2) (boxes st2) (Some (x, y))
  else st2.

(** The body of the outer loop, for line [y]. *)
Definition scan_line (w : nat) (st : Board) (yl : Z * string) : Board :=
  let y := fst yl in
  let row := list_ascii_of_string (ljust (snd yl) w) in
  fold_left (scan_cell y) (enumerate 0 row)
    (mkBoard (board st ++ [row]) (width st) (height st) (walls st)
             (targets st) (boxes st) (player st)).

(** The lines the parser keeps: those that are not blank, without their
    line feed. *)
Definition board_lines (content : string) : list string :=
  map rstrip_nl
      (filter (fun line => negb (strip line =? "")) (file_lines content)).

(** [parse_xsb_board], applied to the content of the file at
    [board_path] as the text-mode file object delivers it (line ends
    already translated to line feeds).  [max] raises [ValueError] when no
    line is kept. *)
Definition parse_xsb_board (content : string) : result Board :=
  let lines := board_lines content in
  let height := List.length lines in
  match max_len lines with
  | None => Raise ValueError
  | Some width =>
      Ok (fold_left (scan_line width) (enumerate 0 lines)
            (mkBoard [] (Z.of_nat width) (Z.of_nat height) [] [] [] None))
  end.

(** ** The model synthesizer (lines 73 to 181) *)

(** [targets.sort(key=lambda pos: (pos[1], pos[0]))]: a stable sort on the
    key (row, column), compared as Python compares tuples.  A stable sort
    has one possible result; insertion from the right computes it. *)
Definition key_leb (p q : Z * Z) : bool :=
  (snd p <? snd q)%Z || ((snd p =? snd q)%Z && (fst p <=? fst q)%Z).

Fixpoint insert_by_key (p : Z * Z) (l : list (Z * Z)) : list (Z * Z) :=
  match l with
  | [] => [p]
  | q :: l' => if key_leb p q then p :: q :: l' else q :: insert_by_key p l'
  end.

Fixpoint sort_targets (l : list (Z * Z)) : list (Z * Z) :=
  match l with
  | [] => []
  | p :: l' => insert_by_key p (sort_targets l')
  end.

Section Synthesizer.

Variable walls0 : list (Z * Z).
Variable num_boxes : nat.

(** Conditions for simple moves (lines 111 to 114). *)
Definition free_left : string :=
  gen_free_cell "player_x - 1" "player_y" walls0 num_boxes.
Definition free_right : string :=
  gen_free_cell "player_x + 1" "player_y" walls0 num_boxes.
Definition free_up : string :=
  gen_free_cell "player_x" "player_y - 1" walls0 num_boxes.
Definition free_down : string :=
  gen_free_cell "player_x" "player_y + 1" walls0 num_boxes.

(** Conditions for push moves (lines 117 to 120). *)
Definition push_left : string :=
  "(" ++ gen_box_at "player_x - 1" "player_y" num_boxes ++ " & "
      ++ gen_free_cell "player_x - 2" "player_y" walls0 num_boxes ++ ")".
Definition push_right : string :=
  "(" ++ gen_box_at "player_x + 1" "player_y" num_boxes ++ " & "
      ++ gen_free_cell "player_x + 2" "player_y" walls0 num_boxes ++ ")".
Definition push_up : string :=
  "(" ++ gen_box_at "player_x" "player_y - 1" num_boxes ++ " & "
      ++ gen_free_cell "player_x" "player_y - 2" walls0 num_boxes ++ ")".
Definition push_down : string :=
  "(" ++ gen_box_at "player_x" "player_y + 1" num_boxes ++ " & "
      ++ gen_free_cell "player_x" "player_y + 2" walls0 num_boxes ++ ")".

(** Lines 123 to 134. *)
Definition next_player_x_lines : list string :=
  [ "    next(player_x) := case";
    "        move = l & " ++ free_left ++ " : player_x - 1;";
    "        move = r & " ++ free_right ++ " : player_x + 1;";
    "        move = u & " ++ free_up ++ " : player_x;";
    "        move = d & " ++ free_down ++ " : player_x;";
    "        move = L & " ++ push_left ++ " : player_x - 1;";
    "        move = R & " ++ push_right ++ " : player_x + 1;";
    "        move = U & " ++ push_up ++ " : player_x;";
    "        move = D & " ++ push_down ++ " : player_x;";
    "        TRUE : player_x;";
    "    esac;";
    "" ].

(** Lines 137 to 148. *)
Definition next_player_y_lines : list string :=
  [ "    next(player_y) := case";
    "        move = l & " ++ free_left ++ " : player_y;";
    "        move = r & " ++ free_right ++ " : player_y;";
    "        move = u & " ++ free_up ++ " : player_y - 1;";
    "        move = d & " ++ free_down ++ " : player_y + 1;";
    "        move = L & " ++ push_left ++ " : player_y;";
    "        move = R & " ++ push_right ++ " : player_y;";
    "        move = U & " ++ push_up ++ " : player_y - 1;";
    "        move = D & " ++ push_down ++ " : player_y + 1;";
    "        TRUE : player_y;";
    "    esac;";
    "" ].

(** The body of the loop of lines 151 to 165, for box [i]. *)
Definition next_box_lines (i : Z) : list string :=
  [ "    next(box_x[" ++ str i ++ "]) := case";
    "        move = L & (box_x[" ++ str i ++ "] = player_x - 1 & box_y["
      ++ str i ++ "] = player_y) & "
      ++ gen_free_cell "player_x - 2" "player_y" walls0 num_boxes
      ++ " : box_x[" ++ str i ++ "] - 1;";
    "        move = R & (box_x[" ++ str i ++ "] = player_x + 1 & box_y["
      ++ str i ++ "] = player_y) & "
      ++ gen_free_cell "player_x + 2" "player_y" walls0 num_boxes
      ++ " : box_x[" ++ str i ++ "] + 1;";
    "        TRUE : box_x[" ++ str i ++ "];";
    "    esac;";
    "    next(box_y[" ++ str i ++ "]) := case";
    "        move = U & (box_x[" ++ str i ++ "] = player_x & box_y["
      ++ str i ++ "] = player_y - 1) & "
      ++ gen_free_cell "player_x" "player_y - 2" walls0 num_boxes
      ++ " : box_y[" ++ str i ++ "] - 1;";
    "        move = D & (box_x[" ++ str i ++ "] = player_x & box_y["
      ++ str i ++ "] = player_y + 1) & "
      ++ gen_free_cell "player_x" "player_y + 2" walls0 num_boxes
      ++ " : box_y[" ++ str i ++ "] + 1;";
    "        TRUE : box_y[" ++ str i ++ "];";
    "    esac;";
    "" ].

End Synthesizer.

(** Lines 84 to 98. *)
Definition header_lines (width height : Z) (num_boxes : nat) : list string :=
  [ "-- Automatically generated SMV model for Sokoban";
    "MODULE main";
    "CONSTANTS";
    "    WIDTH := " ++ str width ++ ";";
    "    HEIGHT := " ++ str height ++ ";";
    "    NUM_BOXES := " ++ str (Z.of_nat num_boxes) ++ ";";
    "";
    "VAR";
    "    player_x : 0..WIDTH-1;";
    "    player_y : 0..HEIGHT-1;";
    "    box_x : array 1..NUM_BOXES of 0..WIDTH-1;";
    "    box_y : array 1..NUM_BOXES of 0..HEIGHT-1;";
    "    move : {l, r, u, d, L, R, U, D};";
    "";
    "ASSIGN" ].

(** Lines 101 and 102, once the player is known to be a pair. *)
Definition init_player_lines (p : Z * Z) : list string :=
  [ "    init(player_x) := " ++ str (fst p) ++ ";";
    "    init(player_y) := " ++ str (snd p) ++ ";" ].

(** The loop of lines 105 to 107. *)
Definition init_box_lines (boxes : list (Z * Z)) : list string :=
  flat_map
    (fun ib : Z * (Z * Z) =>
       [ "    init(box_x[" ++ str (fst ib) ++ "]) := "
           ++ str (fst (snd ib)) ++ ";";
         "    init(box_y[" ++ str (fst ib) ++ "]) := "
           ++ str (snd (snd ib)) ++ ";" ])
    (enumerate 1 boxes).

(** The loop of lines 168 to 170: one condition for each of the first
    [num_boxes] targets. *)
Definition win_conditions (targets : list (Z * Z)) (num_boxes : nat)
  : list string :=
  map
    (fun it : Z * (Z * Z) =>
       "(box_x[" ++ str (fst it) ++ "] = " ++ str (fst (snd it))
         ++ " & box_y[" ++ str (fst it) ++ "] = " ++ str (snd (snd it))
         ++ ")")
    (enumerate 1 (firstn num_boxes targets)).

(** Lines 171 to 173. *)
Definition define_lines (targets : list (Z * Z)) (num_boxes : nat)
  : list string :=
  [ "DEFINE";
    "    win := " ++ String.concat " & " (win_conditions targets num_boxes)
      ++ ";";
    "" ].

(** Lines 176 to 179. *)
Definition ltlspec_lines : list string :=
  [ "-- LTL specification: eventually reach a winning state";
    "LTLSPEC";
    "    F win";
    "" ].

(** [smv_lines] at the return, for a board whose player is the pair [p]
    and whose targets have been sorted. *)
Definition smv_lines (b : Board) (p : Z * Z) : list string :=
  let num_boxes := List.length (boxes b) in
  header_lines (width b) (height b) num_boxes
  ++ init_player_lines p
  ++ init_box_lines (boxes b) ++ [""]
  ++ next_player_x_lines (walls b) num_boxes
  ++ next_player_y_lines (walls b) num_boxes
  ++ flat_map (next_box_lines (walls b) num_boxes) (range1 num_boxes)
  ++ define_lines (targets b) num_boxes
  ++ ltlspec_lines.

(** The board as the call leaves it: line 81 sorts the list that the
    dictionary holds, in place. *)
Definition board_after (b : Board) : Board :=
  mkBoard (board b) (width b) (height b) (walls b)
          (sort_targets (targets b)) (boxes b) (player b).

(** [generate_smv_model]: the board after the call, and the text returned
    or the exception raised.  Subscripting the player of a board that has
    none raises [TypeError] at line 101, after the sort. *)
Definition generate_smv_model (parsed_board : Board)
  : Board * result string :=
  let b := board_after parsed_board in
  match player b with
  | None => (b, Raise TypeError)
  | Some p => (b, Ok (String.concat nl (smv_lines b p)))
  end.

(** ** The emitted expressions: syntax, printer, evaluator *)

Module SMV.

(** The eight symbols of the variable [move]. *)
Inductive Move : Type :=
| Move_l | Move_r | Move_u | Move_d
| Move_L | Move_R | Move_U | Move_D.

Definition Move_eqb (m m' : Move) : bool :=
  match m, m' with
  | Move_l, Move_l | Move_r, Move_r | Move_u, Move_u | Move_d, Move_d
  | Move_L, Move_L | Move_R, Move_R | Move_U, Move_U | Move_D, Move_D => true
  | _, _ => false
  end.

Definition all_moves : list Move :=
  [Move_l; Move_r; Move_u; Move_d; Move_L; Move_R; Move_U; Move_D].

(** The integer identifiers of the model. *)
Inductive var : Type :=
| PlayerX
| PlayerY
| BoxX (i : Z)
| BoxY (i : Z)
| Width
| Height.

(** Integer terms: an identifier, a literal, a term plus or minus a
    literal. *)
Inductive term : Type :=
| Var (v : var)
| Lit (n : Z)
| Plus (t : term) (k : Z)
| Minus (t : term) (k : Z).

Inductive cmp : Type := Eq | Ge | Lt.

(** Boolean expressions.  [Paren] is a pair of parentheses of the text:
    the printer adds none of its own. *)
Inductive expr : Type :=
| ETrue
| EFalse
| Cmp (a : term) (op : cmp) (b : term)
| MoveIs (m : Move)
| Not (e : expr)
| And (e1 e2 : expr)
| Or (e1 e2 : expr)
| Paren (e : expr).

(** A case expression: guards and values, in order. *)
Definition cases : Type := list (expr * term).

(** *** Printer *)

Definition render_move (m : Move) : string :=
  match m with
  | Move_l => "l" | Move_r => "r" | Move_u => "u" | Move_d => "d"
  | Move_L => "L" | Move_R => "R" | Move_U => "U" | Move_D => "D"
  end.

Definition render_var (v : var) : string :=
  match v with
  | PlayerX => "player_x"
  | PlayerY => "player_y"
  | BoxX i => "box_x[" ++ str i ++ "]"
  | BoxY i => "box_y[" ++ str i ++ "]"
  | Width => "WIDTH"
  | Height => "HEIGHT"
  end.

Fixpoint render_term (t : term) : string :=
  match t with
  | Var v => render_var v
  | Lit n => str n
  | Plus t k => render_term t ++ " + " ++ str k
  | Minus t k => render_term t ++ " - " ++ str k
  end.

Definition render_cmp (op : cmp) : string :=
  match op with
  | Eq => " = "
  | Ge => " >= "
  | Lt => " < "
  end.

Fixpoint render (e : expr) : string :=
  match e with
  | ETrue => "TRUE"
  | EFalse => "FALSE"
  | Cmp a op b => render_term a ++ render_cmp op ++ render_term b
  | MoveIs m => "move = " ++ render_move m
  | Not e => "!" ++ render e
  | And e1 e2 => render e1 ++ " & " ++ render e2
  | Or e1 e2 => render e1 ++ " | " ++ render e2
  | Paren e => "(" ++ render e ++ ")"
  end.

Definition render_case (c : expr * term) : string :=
  "        " ++ render (fst c) ++ " : " ++ render_term (snd c) ++ ";".

(** The lines of [next(v) := case ... esac;]. *)
Definition render_next (v : var) (cs : cases) : list string :=
  ("    next(" ++ render_var v ++ ") := case")
    :: map render_case cs ++ ["    esac;"].

(** *** Evaluator *)

(** A state of the model: a value for each variable.  The arrays are
    maps from indices to values. *)
Record State : Type := mkState {
  player_x : Z;
  player_y : Z;
  box_x : Z -> Z;
  box_y : Z -> Z;
  move : Move
}.

Section Eval.

(** The values of the constants [WIDTH] and [HEIGHT]. *)
Variables W H : Z.
Variable s : State.

Definition eval_var (v : var) : Z :=
  match v with
  | PlayerX => player_x s
  | PlayerY => player_y s
  | BoxX i => box_x s i
  | BoxY i => box_y s i
  | Width => W
  | Height => H
  end.

Fixpoint eval_term (t : term) : Z :=
  match t with
  | Var v => eval_var v
  | Lit n => n
  | Plus t k => eval_term t + k
  | Minus t k => eval_term t - k
  end.

Definition eval_cmp (op : cmp) (a b : Z) : bool :=
  match op with
  | Eq => (a =? b)%Z
  | Ge => (a >=? b)%Z
  | Lt => (a <? b)%Z
  end.

Fixpoint eval (e : expr) : bool :=
  match e with
  | ETrue => true
  | EFalse => false
  | Cmp a op b => eval_cmp op (eval_term a) (eval_term b)
  | MoveIs m => Move_eqb (move s) m
  | Not e => negb (eval e)
  | And e1 e2 => eval e1 && eval e2
  | Or e1 e2 => eval e1 || eval e2
  | Paren e => eval e
  end.

(** A case expression has the value of its first case whose guard
    holds. *)
Fixpoint eval_cases (cs : cases) : option Z :=
  match cs with
  | [] => None
  | (g, v) :: cs' => if eval g then Some (eval_term v) else eval_cases cs'
  end.

End Eval.

(** *** The expressions the program emits *)

(** [e & e1 & ... & en] and [e | e1 | ... | en]. *)
Fixpoint conj (e : expr) (es : list expr) : expr :=
  match es with
  | [] => e
  | e' :: es' => And e (conj e' es')
  end.

Fixpoint disj (e : expr) (es : list expr) : expr :=
  match es with
  | [] => e
  | e' :: es' => Or e (disj e' es')
  end.

Definition in_bounds (ex ey : term) : expr :=
  Paren (conj (Cmp ex Ge (Lit 0))
              [Cmp ex Lt (Var Width); Cmp ey Ge (Lit 0);
               Cmp ey Lt (Var Height)]).

Definition wall_cond (ex ey : term) (w : Z * Z) : expr :=
  Not (Paren (And (Paren (Cmp ex Eq (Lit (fst w))))
                  (Paren (Cmp ey Eq (Lit (snd w)))))).

Definition not_wall (ex ey : term) (walls : list (Z * Z)) : expr :=
  match map (wall_cond ex ey) walls with
  | [] => ETrue
  | c :: cs => Paren (conj c cs)
  end.

Definition box_here (ex ey : term) (i : Z) : expr :=
  Paren (And (Paren (Cmp ex Eq (Var (BoxX i))))
             (Paren (Cmp ey Eq (Var (BoxY i))))).

Definition not_box (ex ey : term) (num_boxes : nat) : expr :=
  match map (box_here ex ey) (range1 num_boxes) with
  | [] => ETrue
  | c :: cs => Not (Paren (disj c cs))
  end.

Definition free_cell (ex ey : term) (walls : list (Z * Z))
  (num_boxes : nat) : expr :=
  Paren (conj (in_bounds ex ey)
              [not_wall ex ey walls; not_box ex ey num_boxes]).

Definition box_at (ex ey : term) (num_boxes : nat) : expr :=
  match map (box_here ex ey) (range1 num_boxes) with
  | [] => EFalse
  | c :: cs => Paren (disj c cs)
  end.

Definition px : term := Var PlayerX.
Definition py : term := Var PlayerY.

Section Model.

Variable walls0 : list (Z * Z).
Variable num_boxes : nat.

Definition free_at (ex ey : term) : expr := free_cell ex ey walls0 num_boxes.

Definition push_at (ex ey ex2 ey2 : term) : expr :=
  Paren (And (box_at ex ey num_boxes) (free_at ex2 ey2)).

(** The condition that goes with each symbol of [move] in the player's
    case expressions. *)
Definition move_cond (m : Move) : expr :=
  match m with
  | Move_l => free_at (Minus px 1) py
  | Move_r => free_at (Plus px 1) py
  | Move_u => free_at px (Minus py 1)
  | Move_d => free_at px (Plus py 1)
  | Move_L => push_at (Minus px 1) py (Minus px 2) py
  | Move_R => push_at (Plus px 1) py (Plus px 2) py
  | Move_U => push_at px (Minus py 1) px (Minus py 2)
  | Move_D => push_at px (Plus py 1) px (Plus py 2)
  end.

Definition guard (m : Move) : expr := And (MoveIs m) (move_cond m).

Definition player_x_cases : cases :=
  [ (guard Move_l, Minus px 1);
    (guard Move_r, Plus px 1);
    (guard Move_u, px);
    (guard Move_d, px);
    (guard Move_L, Minus px 1);
    (guard Move_R, Plus px 1);
    (guard Move_U, px);
    (guard Move_D, px);
    (ETrue, px) ].

Definition player_y_cases : cases :=
  [ (guard Move_l, py);
    (guard Move_r, py);
    (guard Move_u, Minus py 1);
    (guard Move_d, Plus py 1);
    (guard Move_L, py);
    (guard Move_R, py);
    (guard Move_U, Minus py 1);
    (guard Move_D, Plus py 1);
    (ETrue, py) ].

(** The guard of a push of box [i]: the symbol, the box at the cell
    [(ex, ey)], the cell [(ex2, ey2)] free. *)
Definition box_guard (m : Move) (i : Z) (ex ey ex2 ey2 : term) : expr :=
  conj (MoveIs m)
       [Paren (And (Cmp (Var (BoxX i)) Eq ex) (Cmp (Var (BoxY i)) Eq ey));
        free_at ex2 ey2].

Definition box_x_cases (i : Z) : cases :=
  [ (box_guard Move_L i (Minus px 1) py (Minus px 2) py,
     Minus (Var (BoxX i)) 1);
    (box_guard Move_R i (Plus px 1) py (Plus px 2) py,
     Plus (Var (BoxX i)) 1);
    (ETrue, Var (BoxX i)) ].

Definition box_y_cases (i : Z) : cases :=
  [ (box_guard Move_U i px (Minus py 1) px (Minus py 2),
     Minus (Var (BoxY i)) 1);
    (box_guard Move_D i px (Plus py 1) px (Plus py 2),
     Plus (Var (BoxY i)) 1);
    (ETrue, Var (BoxY i)) ].

End Model.

(** The condition of the goal for box [i] and target [t]. *)
Definition on_target (it : Z * (Z * Z)) : expr :=
  Paren (And (Cmp (Var (BoxX (fst it))) Eq (Lit (fst (snd it))))
             (Cmp (Var (BoxY (fst it))) Eq (Lit (snd (snd it))))).

Definition win_conds (targets : list (Z * Z)) (num_boxes : nat)
  : list expr :=
  map on_target (enumerate 1 (firstn num_boxes targets)).

(** *** Reading the text back

    The modelling language gives [!] precedence over the comparisons, the
    comparisons over [&], and [&] over [|].  The text of an expression
    reads back as the expression when a negation applies to a constant or
    to a parenthesised expression and no operand of [&] is a bare [|]. *)

Definition is_or (e : expr) : bool :=
  match e with
  | Or _ _ => true
  | _ => false
  end.

Definition is_primary (e : expr) : bool :=
  match e with
  | ETrue | EFalse | Paren _ => true
  | _ => false
  end.

Fixpoint reads_back (e : expr) : bool :=
  match e with
  | ETrue | EFalse | Cmp _ _ _ | MoveIs _ => true
  | Not e => is_primary e && reads_back e
  | And e1 e2 =>
      negb (is_or e1) && negb (is_or e2) && reads_back e1 && reads_back e2
  | Or e1 e2 => reads_back e1 && reads_back e2
  | Paren e => reads_back e
  end.

End SMV.

Import SMV.

(** ** The trace decoder (lines 212 to 227) *)

(** The class [[lurdLURD]]. *)
Definition is_move_char (c : ascii) : bool :=
  in_chars c ["l"; "u"; "r"; "d"; "L"; "U"; "R"; "D"]%char.

(** [s] without the prefix [p], when it starts with [p]. *)
Fixpoint strip_prefix (p s : string) : option string :=
  match p with
  | "" => Some s
  | String a p' =>
      match s with
      | "" => None
      | String c s' => if Ascii.eqb a c then strip_prefix p' s' else None
      end
  end.

(** The longest prefix of [s] made of move characters. *)
Fixpoint take_moves (s : string) : string :=
  match s with
  | "" => ""
  | String c s' => if is_move_char c then String c (take_moves s') else ""
  end.

(** The pattern [Solution:\s*LURD moves:\s*([lurdLURD]+)] matched at the
    start of [s]; the result is group 1.  Each [\s*] is followed by a
    character that is not a space, and the group by nothing, so the
    greedy choice is the only one that can succeed. *)
Definition match_here (s : string) : option string :=
  match strip_prefix "Solution:" s with
  | None => None
  | Some s1 =>
      match strip_prefix "LURD moves:" (lstrip s1) with
      | None => None
      | Some s2 =>
          match take_moves (lstrip s2) with
          | "" => None
          | run => Some run
          end
      end
  end.

(** [re.search]: the match at the leftmost position that has one. *)
Fixpoint re_search (s : string) : option string :=
  match match_here s with
  | Some m => Some m
  | None =>
      match s with
      | "" => None
      | String _ s' => re_search s'
      end
  end.

(** The value a line assigns: what follows its last [=], stripped. *)
Definition assigned_value (line : string) : string :=
  strip (last_item (split "=" line)).

(** The body of the loop of lines 218 to 222: what the line appends to
    [lurds]. *)
Definition scan_trace_line (line : string) : list string :=
  if contains "move =" line then
    let move := assigned_value line in
    if contains move "lurdLURD" then [move] else []
  else [].

(** [lurds] after the loop. *)
Definition lurds (nuxmv_output : string) : list string :=
  flat_map scan_trace_line (split LF nuxmv_output).

(** [extract_solution]; [None] is Python's [None]. *)
Definition extract_solution (nuxmv_output : string) : option string :=
  match re_search nuxmv_output with
  | Some m => Some m
  | None =>
      match lurds nuxmv_output with
      | [] => None
      | ls => Some (String.concat "" ls)
      end
  end.

(** ** What the emitted expressions mean *)

Section Meaning.

Variable b : Board.
Variable s : State.

Let n : nat := List.length (boxes b).

(** The cell [(x, y)] is on the board, is a wall, holds a box, is free. *)
Definition cell_in_bounds (x y : Z) : bool :=
  (0 <=? x)%Z && (x <? width b)%Z && (0 <=? y)%Z && (y <? height b)%Z.

Definition cell_is_wall (x y : Z) : bool :=
  existsb (pos_eqb (x, y)) (walls b).

Definition cell_has_box (x y : Z) : bool :=
  existsb (fun i => (x =? box_x s i)%Z && (y =? box_y s i)%Z) (range1 n).

Definition cell_free (x y : Z) : bool :=
  cell_in_bounds x y && negb (cell_is_wall x y) && negb (cell_has_box x y).

(** The direction of a move, and whether it is a push. *)
Definition delta (m : Move) : Z * Z :=
  match m with
  | Move_l | Move_L => (-1, 0)
  | Move_r | Move_R => (1, 0)
  | Move_u | Move_U => (0, -1)
  | Move_d | Move_D => (0, 1)
  end.

Definition is_push (m : Move) : bool :=
  match m with
  | Move_L | Move_R | Move_U | Move_D => true
  | _ => false
  end.

Definition dx : Z := fst (delta (move s)).
Definition dy : Z := snd (delta (move s)).

(** The selected move can be made: for a step, the next cell is free; for
    a push, the next cell holds a box and the cell after it is free. *)
Definition move_possible : bool :=
  if is_push (move s) then
    cell_has_box (player_x s + dx) (player_y s + dy)
    && cell_free (player_x s + 2 * dx) (player_y s + 2 * dy)
  else cell_free (player_x s + dx) (player_y s + dy).

(** The selected move is the push of box [i]: box [i] is one cell from the
    player in the direction of the push and the cell behind it is free. *)
Definition pushes_box (i : Z) : bool :=
  is_push (move s)
  && (box_x s i =? player_x s + dx)%Z && (box_y s i =? player_y s + dy)%Z
  && cell_free (player_x s + 2 * dx) (player_y s + 2 * dy).

(** The next value of each variable: the value of its case expression. *)
Definition next_player_x : option Z :=
  eval_cases (width b) (height b) s (player_x_cases (walls b) n).

Definition next_player_y : option Z :=
  eval_cases (width b) (height b) s (player_y_cases (walls b) n).

Definition next_box_x (i : Z) : option Z :=
  eval_cases (width b) (height b) s (box_x_cases (walls b) n i).

Definition next_box_y (i : Z) : option Z :=
  eval_cases (width b) (height b) s (box_y_cases (walls b) n i).

End Meaning.

(** The state that the [init] assignments of lines 101 to 107 fix, with
    [m] for the unconstrained variable [move]. *)
Definition lookup_box (proj : Z * Z -> Z) (boxes : list (Z * Z)) (i : Z) : Z :=
  match find (fun ib : Z * (Z * Z) => (fst ib =? i)%Z) (enumerate 1 boxes) with
  | Some ib => proj (snd ib)
  | None => 0
  end.

Definition init_state (b : Board) (p : Z * Z) (m : Move) : State :=
  mkState (fst p) (snd p) (lookup_box fst (boxes b)) (lookup_box snd (boxes b))
          m.

(** The move [m] is enabled in the initial state: with [move = m], the
    guard of the case of [m] in the player's case expressions holds. *)
Definition enabled_first (b : Board) (p : Z * Z) (m : Move) : bool :=
  eval (width b) (height b) (init_state b p m)
       (guard (walls b) (List.length (boxes b)) m).

(** The goal as the specification words it: for [i] from 1 to the minimum of
    the number of boxes and the number of targets, box [i] is at target [i]
    of the sorted targets. *)
Definition goal_by_spec (b : Board) : list expr :=
  map (fun i : nat =>
         let t := nth (i - 1) (sort_targets (targets b)) (0, 0) in
         Paren (And (Cmp (Var (BoxX (Z.of_nat i))) Eq (Lit (fst t)))
                    (Cmp (Var (BoxY (Z.of_nat i))) Eq (Lit (snd t)))))
      (seq 1 (Nat.min (List.length (boxes b)) (List.length (targets b)))).

(** ** The cells of a board, in scan order *)

(** Every cell of the padded rows with its character, row by row and left
    to right. *)
Definition row_cells (w : nat) (yl : Z * string) : list ((Z * Z) * ascii) :=
  map (fun xc : Z * ascii => ((fst xc, fst yl), snd xc))
      (enumerate 0 (list_ascii_of_string (ljust (snd yl) w))).

Definition cells (w : nat) (lines : list string) : list ((Z * Z) * ascii) :=
  flat_map (row_cells w) (enumerate 0 lines).

(** The inner loop body applied along a list of cells. *)
Definition scan_cells (st : Board) (cs : list ((Z * Z) * ascii)) : Board :=
  fold_left (fun st c => scan_cell (snd (fst c)) st (fst (fst c), snd c))
            cs st.

(** The strict order of the sort key: row first, then column. *)
Definition key_lt (p q : Z * Z) : Prop :=
  (snd p < snd q)%Z \/ (snd p = snd q /\ (fst p < fst q)%Z).

Definition is_target_char (c : ascii) : bool :=
  in_chars c ["."; "+"; "*"]%char.

Definition is_agent_marker (c : ascii) : bool := in_chars c ["@"; "+"]%char.

(** The positions of the agent markers of a board file, in scan order. *)
Definition agent_markers (content : string) : list (Z * Z) :=
  let lines := board_lines content in
  match max_len lines with
  | None => []
  | Some w =>
      map fst (filter (fun c => is_agent_marker (snd c)) (cells w lines))
  end.

(** The content has an agent marker, has a line that is not blank. *)
Definition has_agent_marker (content : string) : bool :=
  existsb is_agent_marker (list_ascii_of_string content).

Definition has_row (content : string) : bool :=
  match board_lines content with
  | [] => false
  | _ => true
  end.

(** ** Shapes of decoder input *)

Definition all_chars (f : ascii -> bool) (s : string) : bool :=
  forallb f (list_ascii_of_string s).

(** [s] does not start with a move character. *)
Definition run_ends (s : string) : bool :=
  match s with
  | "" => true
  | String c _ => negb (is_move_char c)
  end.

(** The text after position [i]. *)
Fixpoint drop (i : nat) (s : string) : string :=
  match i, s with
  | O, _ => s
  | S _, "" => ""
  | S k, String _ s' => drop k s'
  end.

(** A solution annotation: [Solution:], spaces, [LURD moves:], spaces, a
    non-empty run of move characters. *)
Definition annotation (ws1 ws2 run : string) : string :=
  "Solution:" ++ ws1 ++ "LURD moves:" ++ ws2 ++ run.

(** The text holds a solution annotation somewhere. *)
Definition has_annotation (text : string) : Prop :=
  exists pre ws1 ws2 run rest,
    text = pre ++ annotation ws1 ws2 run ++ rest
    /\ all_chars isspace ws1 = true /\ all_chars isspace ws2 = true
    /\ all_chars is_move_char run = true /\ run <> "".

(** A line that assigns a symbol of the alphabet to [move]: it holds
    [move =] and what follows its last [=], stripped, is one of the eight
    move characters. *)
Definition recognised_line (line : string) : bool :=
  contains "move =" line
  && match assigned_value line with
     | String c "" => is_move_char c
     | _ => false
     end.

(** ** Boards used in the statements *)

(** The board of the round-trip scenario. *)
Definition round_trip_board : string :=
  "#####" ++ nl ++ "#@$.#" ++ nl ++ "#####".

(** The board [b] with its wall set iterated in the order [ws]. *)
Definition with_walls (b : Board) (ws : list (Z * Z)) : Board :=
  mkBoard (board b) (width b) (height b) ws (targets b) (boxes b) (player b).

(** What the parser returns for it, with the walls in insertion order. *)
Definition round_trip_parsed : Board :=
  mkBoard (map list_ascii_of_string ["#####"; "#@$.#"; "#####"]) 5 3
          [(0, 0); (1, 0); (2, 0); (3, 0); (4, 0); (0, 1); (4, 1);
           (0, 2); (1, 2); (2, 2); (3, 2); (4, 2)]
          [(3, 1)] [(2, 1)] (Some (1, 1)).

(** ** Further notions: the board *)

Definition is_wall_char (c : ascii) : bool := Ascii.eqb c "#".

Definition is_box_char (c : ascii) : bool := in_chars c ["$"; "*"]%char.

(** The position lies within the dimensions of the board. *)
Definition on_board (b : Board) (p : Z * Z) : Prop :=
  (0 <= fst p < width b)%Z /\ (0 <= snd p < height b)%Z.

(** The order of the sort key, as a proposition. *)
Definition key_le (p q : Z * Z) : Prop := key_leb p q = true.

(** Parsing a file and synthesizing the model of its board, as [main]
    chains them (lines 244 and 246). *)
Definition compile_board (content : string) : result string :=
  match parse_xsb_board content with
  | Raise e => Raise e
  | Ok b => snd (generate_smv_model b)
  end.

(** ** Further notions: the transition system *)

Definition value_or (o : option Z) (d : Z) : Z :=
  match o with
  | Some v => v
  | None => d
  end.

(** One step of the model: every variable takes the value of its [next]
    case expression; [move], which has none, takes any symbol [m']. *)
Definition step (b : Board) (s : State) (m' : Move) : State :=
  mkState (value_or (next_player_x b s) (player_x s))
          (value_or (next_player_y b s) (player_y s))
          (fun i => value_or (next_box_x b s i) (box_x s i))
          (fun i => value_or (next_box_y b s i) (box_y s i))
          m'.

(** The states of the model of a board whose player is [p]: those the
    [init] assignments allow, and those a step leads to. *)
Inductive reachable (b : Board) (p : Z * Z) : State -> Prop :=
| reach_init (m : Move) : reachable b p (init_state b p m)
| reach_step (s : State) (m' : Move) :
    reachable b p s -> reachable b p (step b s m').

(** A state of the game: the player and every box on the board and off
    the walls, the player on no box, no two boxes on one cell. *)
Definition state_ok (b : Board) (s : State) : Prop :=
  cell_in_bounds b (player_x s) (player_y s) = true
  /\ cell_is_wall b (player_x s) (player_y s) = false
  /\ cell_has_box b s (player_x s) (player_y s) = false
  /\ (forall i, In i (range1 (List.length (boxes b))) ->
        cell_in_bounds b (box_x s i) (box_y s i) = true
        /\ cell_is_wall b (box_x s i) (box_y s i) = false)
  /\ (forall i j, In i (range1 (List.length (boxes b))) ->
        In j (range1 (List.length (boxes b))) ->
        box_x s i = box_x s j -> box_y s i = box_y s j -> i = j).

(** ** Further notions: traces *)

(** A line of a trace: some text, or the assignment of a symbol to
    [move] as the checker prints it. *)
Definition trace_line (l : string + ascii) : string :=
  match l with
  | inl s => s
  | inr c => "    move = " ++ String c ""
  end.

Definition trace_text (ls : list (string + ascii)) : string :=
  String.concat nl (map trace_line ls).

Definition trace_moves (ls : list (string + ascii)) : list ascii :=
  flat_map (fun l : string + ascii =>
              match l with
              | inl _ => []
              | inr c => [c]
              end) ls.

(** * Proofs *)

(** ** The printer produces the strings of the source *)

Lemma append_assoc (a b c : string) : (a ++ b) ++ c = a ++ (b ++ c).
Proof. induction a as [|x a IH]; simpl; [reflexivity | now rewrite IH]. Qed.

Lemma append_nil_r (a : string) : a ++ "" = a.
Proof. induction a as [|x a IH]; simpl; [reflexivity | now rewrite IH]. Qed.

Ltac str_norm := repeat rewrite append_assoc; cbn [append].

Lemma render_conj e es :
  render (conj e es) = String.concat " & " (map render (e :: es)).
Proof.
  revert e; induction es as [|e' es IH]; intro e; [reflexivity|].
  cbn [conj render]. rewrite IH. reflexivity.
Qed.

Lemma render_disj e es :
  render (disj e es) = String.concat " | " (map render (e :: es)).
Proof.
  revert e; induction es as [|e' es IH]; intro e; [reflexivity|].
  cbn [disj render]. rewrite IH. reflexivity.
Qed.

Lemma render_in_bounds ex ey :
  render (in_bounds ex ey) = gen_in_bounds (render_term ex) (render_term ey).
Proof.
  unfold in_bounds, gen_in_bounds.
  cbn [conj render render_cmp render_term render_var].
  change (str 0) with "0". str_norm. reflexivity.
Qed.

Lemma render_wall_cond ex ey w :
  render (wall_cond ex ey w)
  = "!((" ++ render_term ex ++ " = " ++ str (fst w) ++ ") & ("
          ++ render_term ey ++ " = " ++ str (snd w) ++ "))".
Proof.
  unfold wall_cond. cbn [render render_cmp render_term]. str_norm. reflexivity.
Qed.

Lemma render_not_wall ex ey ws :
  render (not_wall ex ey ws)
  = gen_not_wall (render_term ex) (render_term ey) ws.
Proof.
  unfold not_wall, gen_not_wall.
  destruct ws as [|w ws]; [reflexivity|].
  cbn [map]. cbn [render]. rewrite render_conj. cbn [map]. rewrite map_map.
  rewrite render_wall_cond.
  rewrite (map_ext _ _ (render_wall_cond ex ey)). reflexivity.
Qed.

Lemma render_box_here ex ey i :
  render (box_here ex ey i) = box_cond (render_term ex) (render_term ey) i.
Proof.
  unfold box_here, box_cond.
  cbn [render render_cmp render_term render_var]. str_norm. reflexivity.
Qed.

Lemma range1_S n : range1 (S n) = 1%Z :: map (Z.add 1) (range1 n).
Proof.
  unfold range1. cbn [seq map]. f_equal.
  rewrite <- seq_shift, !map_map. apply map_ext. intros; lia.
Qed.

Lemma render_not_box ex ey n :
  render (not_box ex ey n) = gen_not_box (render_term ex) (render_term ey) n.
Proof.
  unfold not_box, gen_not_box.
  destruct n as [|n]; [reflexivity|].
  generalize (range1_S n). intros ->.
  generalize (map (Z.add 1) (range1 n)). intro l.
  cbn [map]. cbn [render]. rewrite render_disj. cbn [map]. rewrite map_map.
  rewrite render_box_here, (map_ext _ _ (render_box_here ex ey)). reflexivity.
Qed.

Lemma render_box_at ex ey n :
  render (box_at ex ey n) = gen_box_at (render_term ex) (render_term ey) n.
Proof.
  unfold box_at, gen_box_at.
  destruct n as [|n]; [reflexivity|].
  generalize (range1_S n). intros ->.
  generalize (map (Z.add 1) (range1 n)). intro l.
  cbn [map]. cbn [render]. rewrite render_disj. cbn [map]. rewrite map_map.
  rewrite render_box_here, (map_ext _ _ (render_box_here ex ey)). reflexivity.
Qed.

Lemma render_free_cell ex ey ws n :
  render (free_cell ex ey ws n)
  = gen_free_cell (render_term ex) (render_term ey) ws n.
Proof.
  unfold free_cell, gen_free_cell. cbn [conj render].
  rewrite render_in_bounds, render_not_wall, render_not_box. str_norm.
  reflexivity.
Qed.

Lemma render_free_at ws n ex ey :
  render (free_at ws n ex ey)
  = gen_free_cell (render_term ex) (render_term ey) ws n.
Proof. apply render_free_cell. Qed.

Lemma render_push_at ws n ex ey ex2 ey2 :
  render (push_at ws n ex ey ex2 ey2)
  = "(" ++ gen_box_at (render_term ex) (render_term ey) n ++ " & "
        ++ gen_free_cell (render_term ex2) (render_term ey2) ws n ++ ")".
Proof.
  unfold push_at. cbn [render]. rewrite render_box_at, render_free_at.
  str_norm. reflexivity.
Qed.

(** The condition printed for each move is the string the source binds to
    [free_left], ..., [push_down]. *)
Lemma render_move_cond ws n m :
  render (move_cond ws n m)
  = match m with
    | Move_l => free_left ws n
    | Move_r => free_right ws n
    | Move_u => free_up ws n
    | Move_d => free_down ws n
    | Move_L => push_left ws n
    | Move_R => push_right ws n
    | Move_U => push_up ws n
    | Move_D => push_down ws n
    end.
Proof.
  destruct m; cbn [move_cond];
    rewrite ?render_free_at, ?render_push_at; reflexivity.
Qed.

Lemma render_guard ws n m :
  render (guard ws n m)
  = "move = " ++ render_move m ++ " & " ++ render (move_cond ws n m).
Proof. unfold guard. cbn [render]. str_norm. reflexivity. Qed.

Lemma render_case_guard ws n m v :
  render_case (guard ws n m, v)
  = "        move = " ++ render_move m ++ " & " ++ render (move_cond ws n m)
      ++ " : " ++ render_term v ++ ";".
Proof.
  unfold render_case. cbn [fst snd]. rewrite render_guard. str_norm.
  reflexivity.
Qed.

Lemma render_player_x ws n :
  (render_next PlayerX (player_x_cases ws n) ++ [""])%list
  = next_player_x_lines ws n.
Proof.
  unfold render_next, player_x_cases, next_player_x_lines.
  cbn [map app]. rewrite !render_case_guard, !render_move_cond.
  cbn [render_move]. str_norm. reflexivity.
Qed.

Lemma render_player_y ws n :
  (render_next PlayerY (player_y_cases ws n) ++ [""])%list
  = next_player_y_lines ws n.
Proof.
  unfold render_next, player_y_cases, next_player_y_lines.
  cbn [map app]. rewrite !render_case_guard, !render_move_cond.
  cbn [render_move]. str_norm. reflexivity.
Qed.

Lemma render_box_guard ws n m i ex ey ex2 ey2 :
  render (box_guard ws n m i ex ey ex2 ey2)
  = "move = " ++ render_move m ++ " & (box_x[" ++ str i ++ "] = "
      ++ render_term ex ++ " & box_y[" ++ str i ++ "] = " ++ render_term ey
      ++ ") & " ++ gen_free_cell (render_term ex2) (render_term ey2) ws n.
Proof.
  unfold box_guard. cbn [conj render render_cmp render_term render_var].
  rewrite render_free_at. str_norm. reflexivity.
Qed.

Lemma render_box ws n i :
  (render_next (BoxX i) (box_x_cases ws n i)
   ++ render_next (BoxY i) (box_y_cases ws n i) ++ [""])%list
  = next_box_lines ws n i.
Proof.
  unfold render_next, box_x_cases, box_y_cases, next_box_lines, render_case.
  cbn [map app fst snd]. rewrite !render_box_guard.
  cbn [render render_move render_term render_var px py]. str_norm.
  reflexivity.
Qed.

Lemma render_on_target it :
  render (on_target it)
  = "(box_x[" ++ str (fst it) ++ "] = " ++ str (fst (snd it))
      ++ " & box_y[" ++ str (fst it) ++ "] = " ++ str (snd (snd it)) ++ ")".
Proof.
  unfold on_target. cbn [render render_cmp render_term render_var].
  str_norm. reflexivity.
Qed.

Lemma render_win_conds ts n :
  map render (win_conds ts n) = win_conditions ts n.
Proof.
  unfold win_conds, win_conditions. rewrite map_map.
  apply map_ext, render_on_target.
Qed.

(** The lines of the model are the printed case expressions and goal
    conditions, between the fixed lines of the source. *)
Lemma smv_lines_rendered b p :
  smv_lines b p
  = let n := List.length (boxes b) in
    (header_lines (width b) (height b) n
     ++ init_player_lines p
     ++ init_box_lines (boxes b) ++ [""]
     ++ (render_next PlayerX (player_x_cases (walls b) n) ++ [""])
     ++ (render_next PlayerY (player_y_cases (walls b) n) ++ [""])
     ++ flat_map (fun i =>
                    render_next (BoxX i) (box_x_cases (walls b) n i)
                    ++ render_next (BoxY i) (box_y_cases (walls b) n i)
                    ++ [""])
                 (range1 n)
     ++ [ "DEFINE";
          ("    win := "
            ++ String.concat " & " (map render (win_conds (targets b) n))
            ++ ";")%string;
          "" ]
     ++ ltlspec_lines)%list.
Proof.
  unfold smv_lines, define_lines. cbv zeta.
  rewrite render_player_x, render_player_y, render_win_conds.
  rewrite (flat_map_ext _ _ (render_box (walls b) (List.length (boxes b)))).
  reflexivity.
Qed.

(** ** The emitted expressions read back as their trees *)

Lemma reads_back_conj e es :
  reads_back e = true -> is_or e = false ->
  forallb (fun c => reads_back c && negb (is_or c)) es = true ->
  reads_back (conj e es) = true /\ is_or (conj e es) = false.
Proof.
  revert e. induction es as [|e' es IH]; intros e R O F.
  - now split.
  - cbn [forallb] in F. apply andb_prop in F. destruct F as [F1 F].
    apply andb_prop in F1. destruct F1 as [R' O'].
    apply negb_true_iff in O'.
    destruct (IH e' R' O' F) as [R2 O2].
    cbn [conj reads_back is_or]. now rewrite R, O, R2, O2.
Qed.

Lemma reads_back_disj e es :
  reads_back e = true -> forallb reads_back es = true ->
  reads_back (disj e es) = true.
Proof.
  revert e. induction es as [|e' es IH]; intros e R F; [exact R|].
  cbn [forallb] in F. apply andb_prop in F. destruct F as [R' F].
  cbn [disj reads_back]. now rewrite R, (IH e' R' F).
Qed.

Lemma reads_back_not_wall ex ey ws :
  reads_back (not_wall ex ey ws) = true.
Proof.
  unfold not_wall. destruct ws as [|w ws]; [reflexivity|].
  cbn [map reads_back]. apply reads_back_conj; try reflexivity.
  induction ws as [|w' ws IH]; [reflexivity|]. cbn [map forallb].
  now rewrite IH.
Qed.

Lemma reads_back_boxes ex ey l :
  forallb reads_back (map (box_here ex ey) l) = true.
Proof.
  induction l as [|i l IH]; [reflexivity|]. cbn [map forallb].
  now rewrite IH.
Qed.

Lemma reads_back_not_box ex ey n : reads_back (not_box ex ey n) = true.
Proof.
  unfold not_box. generalize (reads_back_boxes ex ey (range1 n)).
  destruct (map (box_here ex ey) (range1 n)) as [|c cs]; [reflexivity|].
  cbn [forallb]. intro F. apply andb_prop in F. destruct F as [R F].
  cbn [reads_back is_primary andb]. now apply reads_back_disj.
Qed.

Lemma reads_back_box_at ex ey n : reads_back (box_at ex ey n) = true.
Proof.
  unfold box_at. generalize (reads_back_boxes ex ey (range1 n)).
  destruct (map (box_here ex ey) (range1 n)) as [|c cs]; [reflexivity|].
  cbn [forallb]. intro F. apply andb_prop in F. destruct F as [R F].
  cbn [reads_back]. now apply reads_back_disj.
Qed.

Lemma not_box_not_or ex ey n : is_or (not_box ex ey n) = false.
Proof.
  unfold not_box.
  now destruct (map (box_here ex ey) (range1 n)).
Qed.

Lemma not_wall_not_or ex ey ws : is_or (not_wall ex ey ws) = false.
Proof. unfold not_wall. now destruct (map (wall_cond ex ey) ws). Qed.

Lemma box_at_not_or ex ey n : is_or (box_at ex ey n) = false.
Proof. unfold box_at. now destruct (map (box_here ex ey) (range1 n)). Qed.

Lemma reads_back_free_cell ex ey ws n :
  reads_back (free_cell ex ey ws n) = true.
Proof.
  unfold free_cell. cbn [reads_back conj is_or in_bounds].
  rewrite not_wall_not_or, not_box_not_or, reads_back_not_wall,
    reads_back_not_box.
  reflexivity.
Qed.

(** Every guard of the model and every condition of the goal is printed
    so that it reads back as its tree. *)
Lemma reads_back_model ws n :
  (forall m, reads_back (guard ws n m) = true)
  /\ (forall m i ex ey ex2 ey2,
        reads_back (box_guard ws n m i ex ey ex2 ey2) = true)
  /\ (forall it, reads_back (on_target it) = true).
Proof.
  split; [|split].
  - intro m. unfold guard. cbn [reads_back is_or negb andb].
    destruct m; cbn [move_cond]; unfold push_at, free_at;
      cbn [reads_back is_or negb andb];
      rewrite ?reads_back_free_cell, ?reads_back_box_at, ?box_at_not_or;
      reflexivity.
  - intros m i ex ey ex2 ey2. unfold box_guard, free_at.
    cbn [conj reads_back is_or negb andb].
    now rewrite reads_back_free_cell.
  - intro it. reflexivity.
Qed.

(** ** The evaluator on the emitted predicates *)

Section EvalLemmas.

Variable b : Board.
Variable s : State.

Local Abbreviation ev := (eval (width b) (height b) s).
Local Abbreviation evt := (eval_term (width b) (height b) s).
Local Abbreviation n := (List.length (boxes b)).

Lemma eval_conj e es : ev (conj e es) = ev e && forallb ev es.
Proof.
  revert e; induction es as [|e' es IH]; intro e; cbn [conj eval forallb].
  - now rewrite andb_true_r.
  - now rewrite IH.
Qed.

Lemma eval_disj e es : ev (disj e es) = ev e || existsb ev es.
Proof.
  revert e; induction es as [|e' es IH]; intro e; cbn [disj eval existsb].
  - now rewrite orb_false_r.
  - now rewrite IH.
Qed.

Lemma eval_in_bounds ex ey :
  ev (in_bounds ex ey) = cell_in_bounds b (evt ex) (evt ey).
Proof.
  unfold in_bounds, cell_in_bounds.
  cbn [eval conj eval_cmp eval_term eval_var].
  rewrite !Z.geb_leb, !andb_assoc. reflexivity.
Qed.

Lemma eval_not_wall ex ey :
  ev (not_wall ex ey (walls b)) = negb (cell_is_wall b (evt ex) (evt ey)).
Proof.
  unfold not_wall, cell_is_wall.
  induction (walls b) as [|w ws IH]; [reflexivity|].
  cbn [map eval existsb] in *. rewrite eval_conj.
  destruct (map (wall_cond ex ey) ws) as [|c cs] eqn:E.
  - destruct ws; [|discriminate]. cbn [forallb existsb eval eval_cmp eval_term].
    now rewrite andb_true_r, orb_false_r.
  - cbn [eval] in IH. rewrite eval_conj in IH. cbn [forallb]. rewrite IH.
    cbn [wall_cond eval eval_cmp eval_term]. unfold pos_eqb. cbn [fst snd].
    now rewrite negb_orb.
Qed.

Lemma existsb_box_here ex ey l :
  existsb ev (map (box_here ex ey) l)
  = existsb (fun i => (evt ex =? box_x s i)%Z && (evt ey =? box_y s i)%Z) l.
Proof.
  induction l as [|i l IH]; [reflexivity|].
  cbn [map existsb]. now rewrite IH.
Qed.

Lemma eval_box_at ex ey :
  ev (box_at ex ey n) = cell_has_box b s (evt ex) (evt ey).
Proof.
  unfold box_at, cell_has_box. rewrite <- existsb_box_here.
  destruct (map (box_here ex ey) (range1 n)) as [|c cs]; [reflexivity|].
  cbn [eval existsb]. apply eval_disj.
Qed.

Lemma eval_not_box ex ey :
  ev (not_box ex ey n) = negb (cell_has_box b s (evt ex) (evt ey)).
Proof.
  unfold not_box, cell_has_box. rewrite <- existsb_box_here.
  destruct (map (box_here ex ey) (range1 n)) as [|c cs]; [reflexivity|].
  cbn [eval existsb]. now rewrite eval_disj.
Qed.

Lemma eval_free_at ex ey :
  ev (free_at (walls b) n ex ey) = cell_free b s (evt ex) (evt ey).
Proof.
  unfold free_at, free_cell, cell_free. cbn [eval]. rewrite eval_conj.
  cbn [forallb]. rewrite eval_in_bounds, eval_not_wall, eval_not_box.
  now rewrite andb_true_r, andb_assoc.
Qed.

Lemma eval_push_at ex ey ex2 ey2 :
  ev (push_at (walls b) n ex ey ex2 ey2)
  = cell_has_box b s (evt ex) (evt ey) && cell_free b s (evt ex2) (evt ey2).
Proof.
  unfold push_at. cbn [eval]. now rewrite eval_box_at, eval_free_at.
Qed.

Lemma Move_eqb_eq m m' : Move_eqb m m' = true <-> m = m'.
Proof. destruct m, m'; cbn; split; intro E; congruence. Qed.

(** The guard of a move holds exactly when that move is selected and can
    be made. *)
Lemma eval_guard m :
  ev (guard (walls b) n m) = Move_eqb (move s) m && move_possible b s.
Proof.
  unfold guard. cbn [eval].
  destruct (Move_eqb (move s) m) eqn:E; [|reflexivity].
  apply Move_eqb_eq in E. cbn [andb].
  unfold move_possible, dx, dy. rewrite E.
  destruct m; cbn [move_cond is_push delta fst snd];
    rewrite ?eval_free_at, ?eval_push_at;
    cbn [eval_term eval_var px py];
    repeat (f_equal; try lia).
Qed.

Lemma eval_box_guard m i ex ey ex2 ey2 :
  ev (box_guard (walls b) n m i ex ey ex2 ey2)
  = Move_eqb (move s) m
    && ((box_x s i =? evt ex)%Z && (box_y s i =? evt ey)%Z)
    && cell_free b s (evt ex2) (evt ey2).
Proof.
  unfold box_guard. rewrite eval_conj.
  cbn [forallb eval eval_cmp eval_term eval_var].
  rewrite eval_free_at. now rewrite andb_true_r, andb_assoc.
Qed.

End EvalLemmas.

(** ** The transition relation of the model *)

(** The text returned for a board with a player, with each case
    expression printed from its tree. *)
Lemma generate_rendered b p :
  player b = Some p ->
  snd (generate_smv_model b)
  = Ok (String.concat nl
          (header_lines (width b) (height b) (List.length (boxes b))
           ++ init_player_lines p
           ++ init_box_lines (boxes b) ++ [""]
           ++ (render_next PlayerX
                 (player_x_cases (walls b) (List.length (boxes b)))
               ++ [""])
           ++ (render_next PlayerY
                 (player_y_cases (walls b) (List.length (boxes b)))
               ++ [""])
           ++ flat_map
                (fun i =>
                   render_next (BoxX i)
                     (box_x_cases (walls b) (List.length (boxes b)) i)
                   ++ render_next (BoxY i)
                        (box_y_cases (walls b) (List.length (boxes b)) i)
                   ++ [""])
                (range1 (List.length (boxes b)))
           ++ define_lines (sort_targets (targets b))
                (List.length (boxes b))
           ++ ltlspec_lines)%list).
Proof.
  intro P. unfold generate_smv_model. cbn [board_after player]. rewrite P.
  cbn [snd]. unfold smv_lines.
  cbn [board_after walls boxes targets width height].
  rewrite render_player_x, render_player_y.
  rewrite (flat_map_ext _ _ (render_box (walls b) (List.length (boxes b)))).
  reflexivity.
Qed.

(** C7. For a board with a player, the text returned is the one below:
    its lines [next(player_x) := case ... esac;] and
    [next(player_y) := case ... esac;] are the prints of [player_x_cases]
    and [player_y_cases].  In every state and for every selected move,
    the value of the first is the player's x plus the x-component of the
    move when the move can be made, and its x otherwise; likewise for the
    second and y.  So the vertical moves and pushes [u], [d], [U], [D]
    leave x as it is and the horizontal ones [l], [r], [L], [R] leave y as
    it is: x changes only when the guard of one of [l], [r], [L], [R]
    holds and y only when the guard of one of [u], [d], [U], [D] holds. *)
Theorem player_axes_independent (b : Board) (s : State) :
  let n := List.length (boxes b) in
  let value := eval_cases (width b) (height b) s in
  (forall p, player b = Some p ->
     snd (generate_smv_model b)
     = Ok (String.concat nl
             (header_lines (width b) (height b) n
              ++ init_player_lines p
              ++ init_box_lines (boxes b) ++ [""]
              ++ (render_next PlayerX (player_x_cases (walls b) n) ++ [""])
              ++ (render_next PlayerY (player_y_cases (walls b) n) ++ [""])
              ++ flat_map
                   (fun i =>
                      render_next (BoxX i) (box_x_cases (walls b) n i)
                      ++ render_next (BoxY i) (box_y_cases (walls b) n i)
                      ++ [""])
                   (range1 n)
              ++ define_lines (sort_targets (targets b)) n
              ++ ltlspec_lines)%list))
  /\ value (player_x_cases (walls b) n)
     = Some (if move_possible b s then player_x s + dx s else player_x s)%Z
  /\ value (player_y_cases (walls b) n)
     = Some (if move_possible b s then player_y s + dy s else player_y s)%Z
  /\ match move s with
     | Move_u | Move_d | Move_U | Move_D =>
         value (player_x_cases (walls b) n) = Some (player_x s)
     | Move_l | Move_r | Move_L | Move_R =>
         value (player_y_cases (walls b) n) = Some (player_y s)
     end
  /\ (value (player_x_cases (walls b) n) = Some (player_x s)
      \/ exists m, In m [Move_l; Move_r; Move_L; Move_R]
           /\ eval (width b) (height b) s (guard (walls b) n m) = true)
  /\ (value (player_y_cases (walls b) n) = Some (player_y s)
      \/ exists m, In m [Move_u; Move_d; Move_U; Move_D]
           /\ eval (width b) (height b) s (guard (walls b) n m) = true).
Proof.
  cbv zeta. split; [exact (generate_rendered b)|].
  assert (G : forall m, m = move s ->
            eval (width b) (height b) s
              (guard (walls b) (List.length (boxes b)) m)
            = move_possible b s).
  { intros m ->. rewrite eval_guard.
    replace (Move_eqb (move s) (move s)) with true; [reflexivity|].
    symmetry. now apply Move_eqb_eq. }
  unfold player_x_cases, player_y_cases.
  cbn [eval_cases eval eval_term eval_var px py].
  rewrite !eval_guard. unfold dx, dy.
  destruct (move s) eqn:E; cbn [Move_eqb andb delta fst snd];
    destruct (move_possible b s) eqn:P;
    rewrite ?Z.add_0_r;
    repeat split; try reflexivity; try (left; reflexivity);
    right; eexists; (split; [|apply G; reflexivity]); cbn; tauto.
Qed.

Lemma player_axes_independent_witness :
  (exists text, snd (generate_smv_model round_trip_parsed) = Ok text)
  /\ eval_cases 5 3 (init_state round_trip_parsed (1, 1) Move_u)
       (player_x_cases (walls round_trip_parsed) 1)
     = Some 1.
Proof.
  destruct (player_axes_independent round_trip_parsed
              (init_state round_trip_parsed (1, 1) Move_u))
    as (T & _ & _ & H & _).
  split; [|exact H].
  eexists. apply (T (1, 1)). reflexivity.
Defined.

(** C6. For a board with a player, the text returned is the one below:
    for every box [i] from 1 to the number of boxes, its lines
    [next(box_x[i]) := case ... esac;] and [next(box_y[i]) := case ...
    esac;] are the prints of [box_x_cases] and [box_y_cases].  In every
    state, the values of these are the coordinates of box [i] moved by the
    direction of the selected move when that move is a push, box [i] is
    exactly one cell from the player in that direction and the cell one
    further is free; in every other case both are unchanged. *)
Theorem box_moves_only_when_pushed (b : Board) (s : State) (i : Z) :
  let n := List.length (boxes b) in
  let value := eval_cases (width b) (height b) s in
  (forall p, player b = Some p ->
     snd (generate_smv_model b)
     = Ok (String.concat nl
             (header_lines (width b) (height b) n
              ++ init_player_lines p
              ++ init_box_lines (boxes b) ++ [""]
              ++ (render_next PlayerX (player_x_cases (walls b) n) ++ [""])
              ++ (render_next PlayerY (player_y_cases (walls b) n) ++ [""])
              ++ flat_map
                   (fun i =>
                      render_next (BoxX i) (box_x_cases (walls b) n i)
                      ++ render_next (BoxY i) (box_y_cases (walls b) n i)
                      ++ [""])
                   (range1 n)
              ++ define_lines (sort_targets (targets b)) n
              ++ ltlspec_lines)%list))
  /\ next_box_lines (walls b) n i
     = (render_next (BoxX i) (box_x_cases (walls b) n i)
        ++ render_next (BoxY i) (box_y_cases (walls b) n i) ++ [""])%list
  /\ value (box_x_cases (walls b) n i)
     = Some (if pushes_box b s i then box_x s i + dx s else box_x s i)%Z
  /\ value (box_y_cases (walls b) n i)
     = Some (if pushes_box b s i then box_y s i + dy s else box_y s i)%Z.
Proof.
  cbv zeta. split; [exact (generate_rendered b)|].
  split; [symmetry; apply render_box|].
  split.
  all: unfold box_x_cases, box_y_cases, pushes_box;
    cbn [eval_cases eval eval_term eval_var];
    rewrite !eval_box_guard; cbn [eval_term eval_var px py];
    unfold dx, dy;
    destruct (move s); cbn [Move_eqb andb is_push delta fst snd];
    rewrite ?Z.add_0_r;
    repeat match goal with
           | |- context [(?a + -1)%Z] =>
               replace (a + -1)%Z with (a - 1)%Z by lia
           | |- context [(?a + 2 * -1)%Z] =>
               replace (a + 2 * -1)%Z with (a - 2)%Z by lia
           | |- context [(?a + 2 * 0)%Z] =>
               replace (a + 2 * 0)%Z with a by lia
           | |- context [(?a + 2 * 1)%Z] =>
               replace (a + 2 * 1)%Z with (a + 2)%Z by lia
           end;
    try reflexivity;
    match goal with
    | |- context [if ?c then _ else _] => destruct c; reflexivity
    end.
Qed.

Lemma box_moves_only_when_pushed_witness :
  (exists text, snd (generate_smv_model round_trip_parsed) = Ok text)
  /\ eval_cases 5 3 (init_state round_trip_parsed (1, 1) Move_R)
       (box_x_cases (walls round_trip_parsed) 1 1)
     = Some 3.
Proof.
  destruct (box_moves_only_when_pushed round_trip_parsed
              (init_state round_trip_parsed (1, 1) Move_R) 1)
    as (T & _ & H & _).
  split; [|exact H].
  eexists. apply (T (1, 1)). reflexivity.
Defined.

(** ** The parser, cell by cell *)

Lemma scan_row_as_cells y xcs st :
  fold_left (scan_cell y) xcs st
  = scan_cells st (map (fun xc : Z * ascii => ((fst xc, y), snd xc)) xcs).
Proof.
  unfold scan_cells. revert st.
  induction xcs as [|[x c] xcs IH]; intro st; [reflexivity|].
  cbn [map fold_left fst snd]. apply IH.
Qed.

Lemma scan_cells_app st cs cs' :
  scan_cells st (cs ++ cs') = scan_cells (scan_cells st cs) cs'.
Proof. apply fold_left_app. Qed.

(** Walls, targets, boxes and player after a cell depend on those fields
    alone. *)
Lemma scan_cell_fields y xc st st' :
  walls st = walls st' -> targets st = targets st' ->
  boxes st = boxes st' -> player st = player st' ->
  walls (scan_cell y st xc) = walls (scan_cell y st' xc)
  /\ targets (scan_cell y st xc) = targets (scan_cell y st' xc)
  /\ boxes (scan_cell y st xc) = boxes (scan_cell y st' xc)
  /\ player (scan_cell y st xc) = player (scan_cell y st' xc).
Proof.
  intros Hw Ht Hb Hp. unfold scan_cell.
  destruct (Ascii.eqb (snd xc) "#");
    destruct (in_chars (snd xc) ["."; "+"; "*"]%char);
    destruct (in_chars (snd xc) ["$"; "*"]%char);
    destruct (in_chars (snd xc) ["@"; "+"]%char);
    cbn [walls targets boxes player];
    rewrite ?Hw, ?Ht, ?Hb, ?Hp; repeat split; reflexivity.
Qed.

Lemma scan_cells_fields cs : forall st st',
  walls st = walls st' -> targets st = targets st' ->
  boxes st = boxes st' -> player st = player st' ->
  walls (scan_cells st cs) = walls (scan_cells st' cs)
  /\ targets (scan_cells st cs) = targets (scan_cells st' cs)
  /\ boxes (scan_cells st cs) = boxes (scan_cells st' cs)
  /\ player (scan_cells st cs) = player (scan_cells st' cs).
Proof.
  induction cs as [|c cs IH]; intros st st' Hw Ht Hb Hp.
  - cbn. auto.
  - unfold scan_cells. cbn [fold_left].
    destruct (scan_cell_fields (snd (fst c)) (fst (fst c), snd c) st st'
                Hw Ht Hb Hp) as (H1 & H2 & H3 & H4).
    apply IH; assumption.
Qed.

Lemma scan_lines_fields w yls : forall st st',
  walls st = walls st' -> targets st = targets st' ->
  boxes st = boxes st' -> player st = player st' ->
  walls (fold_left (scan_line w) yls st)
  = walls (scan_cells st' (flat_map (row_cells w) yls))
  /\ targets (fold_left (scan_line w) yls st)
     = targets (scan_cells st' (flat_map (row_cells w) yls))
  /\ boxes (fold_left (scan_line w) yls st)
     = boxes (scan_cells st' (flat_map (row_cells w) yls))
  /\ player (fold_left (scan_line w) yls st)
     = player (scan_cells st' (flat_map (row_cells w) yls)).
Proof.
  induction yls as [|yl yls IH]; intros st st' Hw Ht Hb Hp.
  - cbn. auto.
  - cbn [fold_left flat_map]. rewrite scan_cells_app.
    apply IH; unfold scan_line; rewrite scan_row_as_cells;
      fold (row_cells w yl);
      apply scan_cells_fields; assumption.
Qed.

Lemma hash_not_target c :
  Ascii.eqb c "#" = true -> is_target_char c = false.
Proof. intro E. apply Ascii.eqb_eq in E. now subst c. Qed.

Lemma targets_scan_cells cs : forall st,
  targets (scan_cells st cs)
  = (targets st
     ++ map fst (filter (fun c => is_target_char (snd c)) cs))%list.
Proof.
  induction cs as [|c cs IH]; intro st.
  - cbn. now rewrite app_nil_r.
  - unfold scan_cells. cbn [fold_left]. fold (scan_cells
      (scan_cell (snd (fst c)) st (fst (fst c), snd c)) cs).
    rewrite IH. cbn [filter]. unfold scan_cell. cbn [fst snd].
    fold (is_target_char (snd c)).
    destruct (Ascii.eqb (snd c) "#") eqn:E1.
    + rewrite (hash_not_target _ E1).
      destruct (in_chars (snd c) ["$"; "*"]%char);
        destruct (in_chars (snd c) ["@"; "+"]%char); reflexivity.
    + destruct c as [[x y] ch]. cbn [fst snd].
      destruct (is_target_char ch);
        destruct (in_chars ch ["$"; "*"]%char);
        destruct (in_chars ch ["@"; "+"]%char);
        cbn [targets map]; rewrite <- ?app_assoc; reflexivity.
Qed.

Lemma last_cons_default {A : Type} (l : list A) : forall a d d',
  List.last (a :: l) d = List.last (a :: l) d'.
Proof.
  induction l as [|x l IH]; intros a d d'; [reflexivity|].
  change (List.last (x :: l) d = List.last (x :: l) d'). apply IH.
Qed.

Lemma last_cons_some {A : Type} (l : list A) a d :
  List.last (a :: l) d = List.last l a.
Proof.
  destruct l as [|x l]; [reflexivity|].
  change (List.last (x :: l) d = List.last (x :: l) a).
  apply last_cons_default.
Qed.

Lemma player_scan_cells cs : forall st,
  player (scan_cells st cs)
  = List.last
      (map Some (map fst (filter (fun c => is_agent_marker (snd c)) cs)))
      (player st).
Proof.
  induction cs as [|c cs IH]; intro st; [reflexivity|].
  unfold scan_cells. cbn [fold_left]. fold (scan_cells
    (scan_cell (snd (fst c)) st (fst (fst c), snd c)) cs).
  rewrite IH. cbn [filter]. unfold scan_cell, is_agent_marker.
  destruct c as [[x y] ch]. cbn [fst snd].
  destruct (in_chars ch ["@"; "+"]%char) eqn:A.
  - cbn [map player fst]. rewrite last_cons_some.
    destruct (Ascii.eqb ch "#");
      destruct (in_chars ch ["."; "+"; "*"]%char);
      destruct (in_chars ch ["$"; "*"]%char); reflexivity.
  - destruct (Ascii.eqb ch "#");
      destruct (in_chars ch ["."; "+"; "*"]%char);
      destruct (in_chars ch ["$"; "*"]%char); reflexivity.
Qed.

(** What a successful parse returns, in terms of the cells of the file. *)
Lemma parse_cells content b :
  parse_xsb_board content = Ok b ->
  exists w,
    max_len (board_lines content) = Some w
    /\ targets b
       = map fst (filter (fun c => is_target_char (snd c))
                         (cells w (board_lines content)))
    /\ player b = List.last (map Some (agent_markers content)) None.
Proof.
  unfold parse_xsb_board, agent_markers.
  destruct (max_len (board_lines content)) as [w|] eqn:M; [|discriminate].
  intro E. injection E as <-. exists w. split; [reflexivity|].
  set (st0 := mkBoard [] (Z.of_nat w)
                (Z.of_nat (List.length (board_lines content))) [] [] [] None).
  destruct (scan_lines_fields w (enumerate 0 (board_lines content)) st0 st0
              eq_refl eq_refl eq_refl eq_refl) as (_ & Ht & _ & Hp).
  fold (cells w (board_lines content)) in Ht, Hp.
  rewrite Ht, Hp, targets_scan_cells, player_scan_cells. split; reflexivity.
Qed.

(** ** Scan order and the sort of line 81 *)

Lemma StronglySorted_app {A : Type} (R : A -> A -> Prop) (l1 l2 : list A) :
  StronglySorted R l1 -> StronglySorted R l2 ->
  (forall a a', In a l1 -> In a' l2 -> R a a') ->
  StronglySorted R (l1 ++ l2).
Proof.
  induction l1 as [|x l1 IH]; intros S1 S2 H; [exact S2|].
  apply StronglySorted_inv in S1. destruct S1 as [S1 F1].
  cbn [app]. constructor.
  - apply IH; [exact S1 | exact S2 |]. intros a a' Ha. apply H. now right.
  - apply Forall_app. split; [exact F1|].
    apply Forall_forall. intros a' Ha'. apply H; [now left | exact Ha'].
Qed.

Lemma StronglySorted_filter {A : Type} (R : A -> A -> Prop) f (l : list A) :
  StronglySorted R l -> StronglySorted R (filter f l).
Proof.
  induction 1 as [|x l S IH F]; cbn [filter]; [constructor|].
  destruct (f x); [|exact IH]. constructor; [exact IH|].
  apply Forall_forall. intros y Hy. apply filter_In in Hy.
  rewrite Forall_forall in F. now apply F.
Qed.

Lemma StronglySorted_map {A B : Type} (R : B -> B -> Prop) (g : A -> B)
  (l : list A) :
  StronglySorted (fun a a' => R (g a) (g a')) l ->
  StronglySorted R (map g l).
Proof.
  induction 1 as [|x l S IH F]; cbn [map]; constructor; [exact IH|].
  apply Forall_map. exact F.
Qed.

Lemma enumerate_ge {A : Type} (l : list A) : forall k ia,
  In ia (enumerate k l) -> (k <= fst ia)%Z.
Proof.
  induction l as [|a l IH]; intros k ia H; [destruct H|].
  destruct H as [<- | H]; [cbn; lia|]. apply IH in H. lia.
Qed.

Lemma enumerate_sorted {A : Type} (l : list A) : forall k,
  StronglySorted (fun ia ia' : Z * A => (fst ia < fst ia')%Z)
                 (enumerate k l).
Proof.
  induction l as [|a l IH]; intro k; cbn [enumerate]; constructor.
  - apply IH.
  - apply Forall_forall. intros ia H. apply enumerate_ge in H. cbn. lia.
Qed.

Lemma row_cells_row w yl c : In c (row_cells w yl) -> snd (fst c) = fst yl.
Proof.
  unfold row_cells. intro H. apply in_map_iff in H.
  destruct H as (xc & <- & _). reflexivity.
Qed.

Lemma row_cells_sorted w yl :
  StronglySorted (fun c c' : (Z * Z) * ascii => key_lt (fst c) (fst c'))
                 (row_cells w yl).
Proof.
  unfold row_cells.
  generalize (enumerate_sorted (list_ascii_of_string (ljust (snd yl) w)) 0).
  generalize (enumerate 0 (list_ascii_of_string (ljust (snd yl) w))).
  induction 1 as [|xc l S IH F]; cbn [map]; constructor; [exact IH|].
  apply Forall_map. revert F. apply Forall_impl.
  intros xc' H. right. cbn. split; [reflexivity | exact H].
Qed.

Lemma cells_from_sorted w lines : forall y0,
  StronglySorted (fun c c' : (Z * Z) * ascii => key_lt (fst c) (fst c'))
                 (flat_map (row_cells w) (enumerate y0 lines))
  /\ forall c, In c (flat_map (row_cells w) (enumerate y0 lines)) ->
               (y0 <= snd (fst c))%Z.
Proof.
  induction lines as [|line lines IH]; intro y0; cbn [enumerate flat_map].
  - split; [constructor | intros c []].
  - destruct (IH (y0 + 1)%Z) as [S G]. split.
    + apply StronglySorted_app; [apply row_cells_sorted | exact S |].
      intros a a' Ha Ha'. left.
      apply row_cells_row in Ha. apply G in Ha'. cbn in Ha. lia.
    + intros c H. apply in_app_or in H. destruct H as [H | H].
      * apply row_cells_row in H. cbn in H. lia.
      * apply G in H. lia.
Qed.

Lemma sort_targets_sorted l :
  StronglySorted key_lt l -> sort_targets l = l.
Proof.
  induction 1 as [|p l S IH F]; [reflexivity|].
  cbn [sort_targets]. rewrite IH.
  destruct l as [|q l]; [reflexivity|].
  cbn [insert_by_key]. apply Forall_inv in F.
  replace (key_leb p q) with true; [reflexivity|].
  symmetry. unfold key_leb. destruct F as [F | [F1 F2]].
  - apply Z.ltb_lt in F. now rewrite F.
  - apply Z.eqb_eq in F1. apply Z.lt_le_incl, Z.leb_le in F2.
    rewrite F1, F2. apply orb_true_r.
Qed.

(** The parser appends the targets in the order of the sort key. *)
Lemma parsed_targets_sorted content b :
  parse_xsb_board content = Ok b -> StronglySorted key_lt (targets b).
Proof.
  intro P. destruct (parse_cells content b P) as (w & _ & -> & _).
  apply StronglySorted_map, StronglySorted_filter.
  apply (cells_from_sorted w (board_lines content) 0).
Qed.

(** On a board that no parse returns the call does reorder the targets:
    the statement below is about parsed boards. *)
Lemma sort_reorders_unsorted_targets :
  targets (fst (generate_smv_model
                  (mkBoard [] 4 2 [] [(1, 1); (3, 0)] [] (Some (0, 0)))))
  = [(3, 0); (1, 1)].
Proof. reflexivity. Qed.

(** C3. On every board the parser returns, the synthesizer leaves the
    board as it was: every field, the targets among them, has after the
    call the value it had before, whether the call returns the model or
    raises. *)
Theorem synthesis_keeps_parsed_board (content : string) (b : Board) :
  parse_xsb_board content = Ok b ->
  fst (generate_smv_model b) = b.
Proof.
  intro P.
  assert (E : board_after b = b).
  { unfold board_after.
    rewrite (sort_targets_sorted _ (parsed_targets_sorted content b P)).
    now destruct b. }
  unfold generate_smv_model.
  destruct (player (board_after b)); exact E.
Qed.

Lemma synthesis_keeps_parsed_board_witness :
  fst (generate_smv_model round_trip_parsed) = round_trip_parsed.
Proof.
  apply (synthesis_keeps_parsed_board round_trip_board).
  vm_compute. reflexivity.
Defined.

(** ** Boards without an agent marker *)

Lemma chars_app (s1 s2 : string) :
  list_ascii_of_string (s1 ++ s2)
  = (list_ascii_of_string s1 ++ list_ascii_of_string s2)%list.
Proof.
  induction s1 as [|c s1 IH]; [reflexivity|]. cbn. now rewrite IH.
Qed.

Lemma chars_spaces k c : In c (list_ascii_of_string (spaces k)) -> c = " "%char.
Proof.
  induction k as [|k IH]; cbn; [tauto|]. intros [E | H]; auto.
Qed.

Lemma chars_ljust s w c :
  In c (list_ascii_of_string (ljust s w)) ->
  In c (list_ascii_of_string s) \/ c = " "%char.
Proof.
  unfold ljust. rewrite chars_app. intro H. apply in_app_or in H.
  destruct H as [H | H]; [now left | right]. eapply chars_spaces, H.
Qed.

Lemma chars_rstrip_nl s c :
  In c (list_ascii_of_string (rstrip_nl s)) -> In c (list_ascii_of_string s).
Proof.
  induction s as [|a s IH]; cbn [rstrip_nl]; [tauto|].
  destruct ((rstrip_nl s =? "") && Ascii.eqb a LF); cbn; [tauto|].
  intros [E | H]; auto.
Qed.

Lemma chars_file_lines s : forall l c,
  In l (file_lines s) -> In c (list_ascii_of_string l) ->
  In c (list_ascii_of_string s).
Proof.
  induction s as [|a s IH]; intros l c Hl Hc; [destruct Hl|].
  cbn [file_lines] in Hl. cbn [list_ascii_of_string].
  destruct (Ascii.eqb a LF).
  - destruct Hl as [<- | Hl].
    + cbn in Hc. destruct Hc as [E | []]. now left.
    + right. eapply IH; eassumption.
  - destruct (file_lines s) as [|l0 ls] eqn:E.
    + destruct Hl as [<- | []]. cbn in Hc. destruct Hc as [E' | []].
      now left.
    + destruct Hl as [<- | Hl].
      * cbn in Hc. destruct Hc as [E' | Hc]; [now left | right].
        apply (IH l0); [now left | exact Hc].
      * right. apply (IH l); [now right | exact Hc].
Qed.

Lemma chars_board_lines content l c :
  In l (board_lines content) -> In c (list_ascii_of_string l) ->
  In c (list_ascii_of_string content).
Proof.
  unfold board_lines. intros Hl Hc. apply in_map_iff in Hl.
  destruct Hl as (l0 & <- & Hl0). apply filter_In in Hl0.
  destruct Hl0 as [Hl0 _]. apply chars_rstrip_nl in Hc.
  eapply chars_file_lines; eassumption.
Qed.

Lemma enumerate_In {A : Type} (l : list A) : forall k ia,
  In ia (enumerate k l) -> In (snd ia) l.
Proof.
  induction l as [|a l IH]; intros k ia H; [destruct H|].
  destruct H as [<- | H]; [now left | right]. eapply IH, H.
Qed.

Lemma cells_chars w lines cell :
  In cell (cells w lines) ->
  (exists l, In l lines /\ In (snd cell) (list_ascii_of_string l))
  \/ snd cell = " "%char.
Proof.
  unfold cells, row_cells. intro H. apply in_flat_map in H.
  destruct H as (yl & Hyl & H). apply in_map_iff in H.
  destruct H as (xc & <- & Hxc). cbn [snd].
  apply enumerate_In in Hxc. apply enumerate_In in Hyl.
  apply chars_ljust in Hxc. destruct Hxc as [Hxc | Hxc]; [left | now right].
  exists (snd yl). split; assumption.
Qed.

Lemma filter_none {A : Type} (f : A -> bool) (l : list A) :
  (forall a, In a l -> f a = false) -> filter f l = [].
Proof.
  induction l as [|a l IH]; intro H; [reflexivity|].
  cbn [filter]. rewrite (H a (or_introl eq_refl)).
  apply IH. intros a' Ha'. apply H. now right.
Qed.

Lemma no_marker_no_agent content :
  has_agent_marker content = false -> agent_markers content = [].
Proof.
  unfold has_agent_marker, agent_markers. intro N.
  destruct (max_len (board_lines content)) as [w|]; [|reflexivity].
  assert (F : forall c, In c (list_ascii_of_string content) ->
                        is_agent_marker c = false).
  { intros c Hc. destruct (is_agent_marker c) eqn:E; [|reflexivity].
    rewrite <- N. symmetry. apply existsb_exists. now exists c. }
  rewrite filter_none; [reflexivity|].
  intros cell Hc. apply cells_chars in Hc.
  destruct Hc as [(l & Hl & Hc) | ->]; [|reflexivity].
  apply F. eapply chars_board_lines; eassumption.
Qed.

Lemma has_row_parses content :
  has_row content = true -> exists b, parse_xsb_board content = Ok b.
Proof.
  unfold has_row, parse_xsb_board, max_len.
  destruct (board_lines content); [discriminate|]. intros _. eexists.
  reflexivity.
Qed.

(** C10, as the code has it. A file with at least one line that is not
    blank is parsed without error, and the player of the board is the last
    agent marker in scan order, row by row and left to right; when the file
    has no agent marker the player is absent and the synthesizer raises
    [TypeError] where it subscripts the player (line 101). *)
Theorem agent_marker_handling (content : string) :
  has_row content = true ->
  exists b,
    parse_xsb_board content = Ok b
    /\ player b = List.last (map Some (agent_markers content)) None
    /\ (has_agent_marker content = false ->
        player b = None
        /\ snd (generate_smv_model b) = Raise TypeError).
Proof.
  intro R. destruct (has_row_parses content R) as [b P].
  exists b. split; [exact P|].
  destruct (parse_cells content b P) as (w & _ & _ & Hp).
  split; [exact Hp|]. intro N.
  rewrite (no_marker_no_agent content N) in Hp. cbn in Hp.
  split; [exact Hp|].
  unfold generate_smv_model. cbn [board_after player]. now rewrite Hp.
Qed.

Lemma agent_marker_handling_witness :
  exists b,
    parse_xsb_board ("####" ++ nl ++ "#$.#" ++ nl ++ "####") = Ok b
    /\ player b = None
    /\ snd (generate_smv_model b) = Raise TypeError.
Proof.
  destruct (agent_marker_handling ("####" ++ nl ++ "#$.#" ++ nl ++ "####")
              eq_refl) as (b & P & _ & H).
  exists b. split; [exact P|]. apply H. reflexivity.
Defined.

(** C10 as stated fails on the empty file: it has no agent marker, and
    the parser raises [ValueError] on it ([max] of an empty sequence). *)
Lemma empty_file_not_parsed :
  has_agent_marker "" = false /\ parse_xsb_board "" = Raise ValueError
  /\ ~ (forall content, has_agent_marker content = false ->
          exists b, parse_xsb_board content = Ok b /\ player b = None).
Proof.
  split; [reflexivity|]. split; [reflexivity|].
  intro H. destruct (H "" eq_refl) as (b & P & _). discriminate P.
Qed.

(** ** The trace decoder *)

#[local] Arguments is_move_char : simpl never.
#[local] Arguments isspace : simpl never.

Lemma strip_prefix_app p s : strip_prefix p (p ++ s) = Some s.
Proof.
  induction p as [|a p IH]; [reflexivity|].
  cbn. now rewrite Ascii.eqb_refl.
Qed.

Lemma strip_prefix_Some p : forall s s',
  strip_prefix p s = Some s' -> s = p ++ s'.
Proof.
  induction p as [|a p IH]; intros s s' H; cbn in H.
  - now injection H as ->.
  - destruct s as [|c s]; [discriminate|].
    destruct (Ascii.eqb a c) eqn:E; [|discriminate].
    apply Ascii.eqb_eq in E. subst c. cbn. f_equal. now apply IH.
Qed.

Lemma lstrip_spaces ws s :
  all_chars isspace ws = true -> lstrip (ws ++ s) = lstrip s.
Proof.
  unfold all_chars. induction ws as [|c ws IH]; [reflexivity|].
  cbn. intro H. apply andb_prop in H. destruct H as [Hc Hws].
  rewrite Hc. now apply IH.
Qed.

Lemma lstrip_split s :
  exists ws, s = ws ++ lstrip s /\ all_chars isspace ws = true.
Proof.
  induction s as [|c s (ws & E & A)].
  - exists "". split; reflexivity.
  - cbn [lstrip]. destruct (isspace c) eqn:C.
    + exists (String c ws). split; [cbn; now f_equal|].
      unfold all_chars in *. cbn. now rewrite C.
    + exists "". split; reflexivity.
Qed.

Lemma move_char_not_space c : is_move_char c = true -> isspace c = false.
Proof.
  unfold is_move_char, in_chars. cbn [existsb]. intro H.
  repeat (apply orb_prop in H; destruct H as [H | H];
          [apply Ascii.eqb_eq in H; subst c; reflexivity|]).
  discriminate.
Qed.

Lemma take_moves_app run rest :
  all_chars is_move_char run = true ->
  take_moves (run ++ rest) = run ++ take_moves rest.
Proof.
  unfold all_chars. induction run as [|c run IH]; [reflexivity|].
  cbn. intro H. apply andb_prop in H. destruct H as [Hc Hr].
  rewrite Hc. f_equal. now apply IH.
Qed.

Lemma take_moves_end rest : run_ends rest = true -> take_moves rest = "".
Proof.
  destruct rest as [|c rest]; [reflexivity|]. cbn [run_ends take_moves].
  now destruct (is_move_char c).
Qed.

Lemma take_moves_split s :
  exists rest, s = take_moves s ++ rest
               /\ all_chars is_move_char (take_moves s) = true.
Proof.
  induction s as [|c s (rest & E & A)].
  - exists "". split; reflexivity.
  - cbn [take_moves]. destruct (is_move_char c) eqn:C.
    + exists rest. split; [cbn; now f_equal|].
      unfold all_chars in *. cbn. now rewrite C.
    + exists (String c s). split; reflexivity.
Qed.

(** The pattern at the start of an annotation: group 1 is the run, as far
    as it goes. *)
Lemma match_here_annotation ws1 ws2 c run rest :
  all_chars isspace ws1 = true -> all_chars isspace ws2 = true ->
  all_chars is_move_char (String c run) = true ->
  match_here (annotation ws1 ws2 (String c run) ++ rest)
  = Some (String c run ++ take_moves rest).
Proof.
  intros H1 H2 Hr. unfold match_here, annotation.
  rewrite !append_assoc, strip_prefix_app.
  rewrite (lstrip_spaces ws1 _ H1).
  change (lstrip ("LURD moves:" ++ ws2 ++ String c run ++ rest))
    with ("LURD moves:" ++ ws2 ++ String c run ++ rest).
  rewrite strip_prefix_app, (lstrip_spaces ws2 _ H2).
  assert (Hc : is_move_char c = true).
  { unfold all_chars in Hr. cbn in Hr. now apply andb_prop in Hr. }
  cbn [append lstrip]. rewrite (move_char_not_space c Hc).
  change (String c (run ++ rest)) with (String c run ++ rest).
  rewrite (take_moves_app _ _ Hr). reflexivity.
Qed.

Lemma match_here_Some s m :
  match_here s = Some m ->
  exists ws1 ws2 rest,
    s = annotation ws1 ws2 m ++ rest
    /\ all_chars isspace ws1 = true /\ all_chars isspace ws2 = true
    /\ all_chars is_move_char m = true /\ m <> "".
Proof.
  unfold match_here.
  destruct (strip_prefix "Solution:" s) as [s1|] eqn:E1; [|discriminate].
  destruct (strip_prefix "LURD moves:" (lstrip s1)) as [s2|] eqn:E2;
    [|discriminate].
  apply strip_prefix_Some in E1, E2.
  destruct (lstrip_split s1) as (ws1 & F1 & A1).
  destruct (lstrip_split s2) as (ws2 & F2 & A2).
  destruct (take_moves_split (lstrip s2)) as (rest & F3 & A3).
  destruct (take_moves (lstrip s2)) as [|c run] eqn:T; [discriminate|].
  intro H. injection H as <-.
  exists ws1, ws2, rest. repeat split; try assumption; [|discriminate].
  unfold annotation. rewrite !append_assoc.
  rewrite E1, F1, E2, F2, F3 at 1. reflexivity.
Qed.

Lemma re_search_here s m : match_here s = Some m -> re_search s = Some m.
Proof. intro H. destruct s; cbn [re_search]; now rewrite H. Qed.

Lemma re_search_skip pre : forall t,
  (forall i, (i < String.length pre)%nat ->
             match_here (drop i (pre ++ t)) = None) ->
  re_search (pre ++ t) = re_search t.
Proof.
  induction pre as [|c pre IH]; intros t H; [reflexivity|].
  cbn [append re_search].
  change (String c (pre ++ t)) with (drop 0 (String c pre ++ t)).
  rewrite (H 0%nat) by (cbn; lia). cbn [drop].
  apply IH. intros i Hi. apply (H (S i)). cbn. lia.
Qed.

Lemma re_search_app pre : forall t,
  re_search t <> None -> re_search (pre ++ t) <> None.
Proof.
  induction pre as [|c pre IH]; intros t H; [exact H|].
  cbn [append re_search].
  destruct (match_here (String c (pre ++ t))); [discriminate|].
  now apply IH.
Qed.

Lemma re_search_Some s : forall m,
  re_search s = Some m -> has_annotation s.
Proof.
  induction s as [|c s IH]; intros m H; cbn [re_search] in H.
  - destruct (match_here "") eqn:E; [|discriminate]. injection H as ->.
    destruct (match_here_Some _ _ E) as (ws1 & ws2 & rest & F & A).
    exists "", ws1, ws2, m, rest. split; [exact F | exact A].
  - destruct (match_here (String c s)) eqn:E.
    + injection H as ->.
      destruct (match_here_Some _ _ E) as (ws1 & ws2 & rest & F & A).
      exists "", ws1, ws2, m, rest. split; [exact F | exact A].
    + destruct (IH m H) as (pre & ws1 & ws2 & run & rest & F & A).
      exists (String c pre), ws1, ws2, run, rest. split; [|exact A].
      cbn. now rewrite F.
Qed.

(** [re.search] finds a match exactly when the text holds an
    annotation. *)
Lemma re_search_annotation s : has_annotation s <-> re_search s <> None.
Proof.
  split.
  - intros (pre & ws1 & ws2 & run & rest & -> & A1 & A2 & A3 & N).
    apply re_search_app. destruct run as [|c run]; [congruence|].
    rewrite (re_search_here _ _
               (match_here_annotation ws1 ws2 c run rest A1 A2 A3)).
    discriminate.
  - destruct (re_search s) as [m|] eqn:E; [|congruence].
    intros _. eapply re_search_Some, E.
Qed.

(** C8. When the text holds a solution annotation (the word [Solution:],
    spaces, [LURD moves:], spaces, a run of move characters that ends
    there) and no match of the pattern starts before it, the decoder
    returns that run as it stands, whatever the text before and after
    holds, lines that assign [move] included. *)
Theorem annotation_takes_precedence (pre ws1 ws2 run rest : string) :
  all_chars isspace ws1 = true -> all_chars isspace ws2 = true ->
  all_chars is_move_char run = true -> run <> "" ->
  run_ends rest = true ->
  (forall i, (i < String.length pre)%nat ->
     match_here (drop i (pre ++ annotation ws1 ws2 run ++ rest)) = None) ->
  extract_solution (pre ++ annotation ws1 ws2 run ++ rest) = Some run.
Proof.
  intros A1 A2 A3 N E L. unfold extract_solution.
  rewrite (re_search_skip pre _ L).
  destruct run as [|c run]; [congruence|].
  rewrite (re_search_here _ _
             (match_here_annotation ws1 ws2 c run rest A1 A2 A3)).
  now rewrite (take_moves_end rest E), append_nil_r.
Qed.

Lemma annotation_takes_precedence_witness :
  extract_solution
    (("move = u" ++ nl) ++ "Solution: LURD moves: rrDD"
       ++ (nl ++ "move = d"))
  = Some "rrDD".
Proof.
  apply (annotation_takes_precedence ("move = u" ++ nl) " " " " "rrDD"
           (nl ++ "move = d"));
    try reflexivity; try discriminate.
  intros i Hi.
  do 9 (destruct i as [|i]; [reflexivity|]).
  cbn in Hi. lia.
Defined.

(** C9, on the code. The text [move = ] holds no solution annotation and
    no line that assigns a symbol of the alphabet to [move], yet the
    decoder returns the empty string and not [None]: the empty value
    passes the substring test of line 221 and the list [lurds], holding
    one empty string, passes the test of line 224.  On a text with
    neither pattern and no [move =] the decoder does return [None]. *)
Theorem empty_value_is_not_none :
  ~ has_annotation "move = "
  /\ (forall line, In line (split LF "move = ") ->
        recognised_line line = false)
  /\ lurds "move = " = [""]
  /\ extract_solution "move = " = Some ""
  /\ extract_solution "no counterexample found" = None.
Proof.
  split.
  { intro A. apply re_search_annotation in A. apply A. reflexivity. }
  split.
  { intros line [<- | []]. reflexivity. }
  repeat split.
Qed.

(** C4, on the code. The test [move in "lurdLURD"] of line 221 is a
    substring test: the second tier collects the value [ur], which is no
    symbol of the alphabet, and the empty value, after which the decoder
    returns the empty string and not [None].  The two lines [move = r] and
    [move = D] decode to [rD]. *)
Theorem tier2_collects_substrings :
  extract_solution "move = ur" = Some "ur"
  /\ scan_trace_line "move = ur" = ["ur"]
  /\ extract_solution "move = " = Some ""
  /\ scan_trace_line "move = " = [""]
  /\ extract_solution ("move = r" ++ nl ++ "move = D") = Some "rD".
Proof. repeat split; reflexivity. Qed.

(** ** The goal definition *)

Lemma insert_by_key_length p l :
  List.length (insert_by_key p l) = S (List.length l).
Proof.
  induction l as [|q l IH]; [reflexivity|].
  cbn [insert_by_key]. destruct (key_leb p q); cbn [List.length]; congruence.
Qed.

Lemma sort_targets_length l :
  List.length (sort_targets l) = List.length l.
Proof.
  induction l as [|p l IH]; [reflexivity|].
  cbn [sort_targets]. now rewrite insert_by_key_length, IH.
Qed.

(** [enumerate] over a slice, by position. *)
Lemma enumerate_firstn_nth {B : Type} (g : Z -> Z * Z -> B) (d : Z * Z)
  (l : list (Z * Z)) : forall (n k : nat),
  map (fun it => g (fst it) (snd it))
      (enumerate (Z.of_nat k) (firstn n l))
  = map (fun i : nat => g (Z.of_nat i) (nth (i - k) l d))
        (seq k (Nat.min n (List.length l))).
Proof.
  induction l as [|a l IH]; intros n k.
  - rewrite firstn_nil, Nat.min_0_r. reflexivity.
  - destruct n as [|n]; [reflexivity|].
    cbn [firstn enumerate map List.length Nat.min seq fst snd].
    rewrite Nat.sub_diag. cbn [nth]. f_equal.
    replace (Z.of_nat k + 1)%Z with (Z.of_nat (S k)) by lia.
    rewrite IH. apply map_ext_in. intros i Hi. apply in_seq in Hi.
    replace (i - k)%nat with (S (i - S k)) by lia. reflexivity.
Qed.

(** The conditions the loop of lines 168 to 170 builds are the ones of
    the specification. *)
Lemma win_conds_by_spec b :
  win_conds (sort_targets (targets b)) (List.length (boxes b))
  = goal_by_spec b.
Proof.
  unfold win_conds, goal_by_spec, on_target.
  rewrite <- (sort_targets_length (targets b)).
  change 1%Z with (Z.of_nat 1).
  apply (enumerate_firstn_nth
           (fun i t => Paren (And (Cmp (Var (BoxX i)) Eq (Lit (fst t)))
                                  (Cmp (Var (BoxY i)) Eq (Lit (snd t)))))).
Qed.

(** The text returned for a board with a player: the lines up to the goal,
    the goal definition, the property. *)
Lemma generate_define b p :
  player b = Some p ->
  exists pre,
    snd (generate_smv_model b)
    = Ok (String.concat nl
            (pre
             ++ [ "DEFINE";
                  ("    win := "
                     ++ String.concat " & " (map render (goal_by_spec b))
                     ++ ";")%string;
                  "" ]
             ++ ltlspec_lines)%list).
Proof.
  intro P. unfold generate_smv_model. cbn [board_after player]. rewrite P.
  cbn [snd]. rewrite smv_lines_rendered. cbv zeta.
  cbn [board_after walls boxes targets width height].
  rewrite win_conds_by_spec.
  eexists. rewrite !app_assoc. reflexivity.
Qed.

Lemma append_empty (a c : string) : a ++ c = "" -> a = "" /\ c = "".
Proof. destruct a; cbn; [auto | discriminate]. Qed.

Lemma render_cmp_nonempty op : render_cmp op <> "".
Proof. destruct op; discriminate. Qed.

(** No expression prints as the empty string. *)
Lemma render_nonempty e : render e <> "".
Proof.
  destruct e; cbn [render]; try discriminate.
  - intro H. apply append_empty in H. destruct H as [_ H].
    apply append_empty in H. destruct H as [H _].
    exact (render_cmp_nonempty op H).
  - intro H. apply append_empty in H. destruct H as [_ H]. discriminate.
  - intro H. apply append_empty in H. destruct H as [_ H]. discriminate.
Qed.

(** C5. For a board with a player, the text returned holds the goal
    definition [win := c1 & ... & ck;] where [k] is the minimum of the
    number of boxes and the number of targets and [ci] says that box [i]
    is at target [i] of the targets sorted by row, then column.  With two
    boxes and three sorted targets the conditions are the one of box 1 and
    target 1 and the one of box 2 and target 2. *)
Theorem goal_is_positional_conjunction (b : Board) (p : Z * Z) :
  player b = Some p ->
  (exists pre,
     snd (generate_smv_model b)
     = Ok (String.concat nl
             (pre
              ++ [ "DEFINE";
                   ("    win := "
                      ++ String.concat " & " (map render (goal_by_spec b))
                      ++ ";")%string;
                   "" ]
              ++ ltlspec_lines)%list))
  /\ List.length (goal_by_spec b)
     = Nat.min (List.length (boxes b)) (List.length (targets b))
  /\ (forall b1 b2 t1 t2 t3,
        boxes b = [b1; b2] -> sort_targets (targets b) = [t1; t2; t3] ->
        map render (goal_by_spec b)
        = [ "(box_x[1] = " ++ str (fst t1) ++ " & box_y[1] = "
              ++ str (snd t1) ++ ")";
            "(box_x[2] = " ++ str (fst t2) ++ " & box_y[2] = "
              ++ str (snd t2) ++ ")" ]).
Proof.
  intro P. split; [exact (generate_define b p P)|]. split.
  - unfold goal_by_spec. now rewrite length_map, length_seq.
  - intros b1 b2 t1 t2 t3 Hb Ht. unfold goal_by_spec.
    rewrite <- (sort_targets_length (targets b)), Hb, Ht.
    cbn [List.length Nat.min seq map nth Nat.sub].
    cbn [render render_cmp render_term render_var].
    change (str (Z.of_nat 1)) with "1". change (str (Z.of_nat 2)) with "2".
    rewrite !append_assoc. reflexivity.
Qed.

Lemma goal_is_positional_conjunction_witness :
  map render
      (goal_by_spec
         (mkBoard [] 8 1 [(0, 0); (7, 0)] [(6, 0); (4, 0); (5, 0)]
                  [(2, 0); (3, 0)] (Some (1, 0))))
  = ["(box_x[1] = 4 & box_y[1] = 0)"; "(box_x[2] = 5 & box_y[2] = 0)"].
Proof.
  destruct (goal_is_positional_conjunction
              (mkBoard [] 8 1 [(0, 0); (7, 0)] [(6, 0); (4, 0); (5, 0)]
                       [(2, 0); (3, 0)] (Some (1, 0)))
              (1, 0) eq_refl) as (_ & _ & H).
  exact (H (2, 0) (3, 0) (4, 0) (5, 0) (6, 0) eq_refl eq_refl).
Defined.

(** C2, on the code. The board of the file below has a player and no box.
    The synthesizer returns a text, and its goal definition is the line
    [win := ;]: what stands for the goal is the empty string, which is the
    print of no expression, where [gen_not_wall], [gen_not_box] and
    [gen_box_at] write [TRUE] or [FALSE] for their empty cases. *)
Theorem zero_boxes_goal_is_empty :
  exists b,
    parse_xsb_board ("####" ++ nl ++ "#@.#" ++ nl ++ "####") = Ok b
    /\ boxes b = []
    /\ (exists pre,
          snd (generate_smv_model b)
          = Ok (String.concat nl
                  (pre ++ ["DEFINE"; "    win := ;"; ""]
                       ++ ltlspec_lines)%list))
    /\ map render (goal_by_spec b) = []
    /\ forall e, render e <> "".
Proof.
  eexists. split; [vm_compute; reflexivity|].
  split; [reflexivity|]. split.
  - match goal with
    | |- context [generate_smv_model ?b] =>
        destruct (generate_define b (1, 1) eq_refl) as [pre E]
    end.
    exists pre. exact E.
  - split; [reflexivity | exact render_nonempty].
Qed.

(** ** The round-trip scenario *)

Lemma existsb_Permutation {A : Type} (f : A -> bool) (l l' : list A) :
  Permutation l l' -> existsb f l = existsb f l'.
Proof.
  induction 1 as [|x l l' _ IH|x y l|l l' l'' _ IH1 _ IH2]; cbn [existsb].
  - reflexivity.
  - now rewrite IH.
  - now rewrite !orb_assoc, (orb_comm (f y)).
  - now rewrite IH1.
Qed.

(** Whether a move is enabled at the start does not depend on the order
    in which the wall set is iterated. *)
Lemma enabled_first_walls b ws p m :
  Permutation ws (walls b) ->
  enabled_first (with_walls b ws) p m = enabled_first b p m.
Proof.
  intro P. unfold enabled_first. rewrite !eval_guard. f_equal.
  unfold move_possible, cell_free, cell_is_wall, cell_in_bounds,
    cell_has_box.
  cbn [with_walls walls width height boxes].
  now rewrite !(existsb_Permutation _ _ _ P).
Qed.

(** C1, as the code has it. On the board of the round-trip scenario,
    whatever the order in which the wall set is iterated: the player starts
    at (1,1), the one box at (2,1), the one target is (3,1); in the initial
    state the guard of the case of [R], the push to the right, holds and
    the guard of every other move is false, the one of the step [r]
    included; the text declares one box ([NUM_BOXES := 1] and the initial
    values of box 1 alone) and its goal is the one condition that box 1 is
    at (3,1). *)
Theorem first_move_is_push_right (b0 : Board) (ws : list (Z * Z)) :
  parse_xsb_board round_trip_board = Ok b0 ->
  Permutation ws (walls b0) ->
  let b := with_walls b0 ws in
  player b = Some (1, 1)%Z /\ boxes b = [(2, 1)%Z]
  /\ targets b = [(3, 1)%Z]
  /\ (forall m, enabled_first b (1, 1)%Z m = Move_eqb m Move_R)
  /\ snd (generate_smv_model b)
     = Ok (String.concat nl
             ([ "-- Automatically generated SMV model for Sokoban";
                "MODULE main";
                "CONSTANTS";
                "    WIDTH := 5;";
                "    HEIGHT := 3;";
                "    NUM_BOXES := 1;";
                "";
                "VAR";
                "    player_x : 0..WIDTH-1;";
                "    player_y : 0..HEIGHT-1;";
                "    box_x : array 1..NUM_BOXES of 0..WIDTH-1;";
                "    box_y : array 1..NUM_BOXES of 0..HEIGHT-1;";
                "    move : {l, r, u, d, L, R, U, D};";
                "";
                "ASSIGN";
                "    init(player_x) := 1;";
                "    init(player_y) := 1;";
                "    init(box_x[1]) := 2;";
                "    init(box_y[1]) := 1;";
                "" ]
              ++ (render_next PlayerX (player_x_cases ws 1) ++ [""])
              ++ (render_next PlayerY (player_y_cases ws 1) ++ [""])
              ++ (render_next (BoxX 1) (box_x_cases ws 1 1)
                  ++ render_next (BoxY 1) (box_y_cases ws 1 1) ++ [""])
              ++ [ "DEFINE";
                   "    win := (box_x[1] = 3 & box_y[1] = 1);";
                   "";
                   "-- LTL specification: eventually reach a winning state";
                   "LTLSPEC";
                   "    F win";
                   "" ])%list).
Proof.
  intros P Hws. vm_compute in P. injection P as <-. intro b.
  split; [reflexivity|]. split; [reflexivity|]. split; [reflexivity|].
  split.
  - intro m. unfold b. rewrite (enabled_first_walls _ ws _ m Hws).
    destruct m; vm_compute; reflexivity.
  - unfold generate_smv_model, b. cbn [with_walls board_after player snd].
    rewrite smv_lines_rendered. reflexivity.
Qed.

Lemma first_move_is_push_right_witness :
  map (enabled_first
         (with_walls round_trip_parsed (rev (walls round_trip_parsed)))
         (1, 1)%Z)
      all_moves
  = [false; false; false; false; false; true; false; false].
Proof.
  destruct (first_move_is_push_right round_trip_parsed
              (rev (walls round_trip_parsed)))
    as (_ & _ & _ & H & _).
  - vm_compute. reflexivity.
  - apply Permutation_sym, Permutation_rev.
  - cbn [map all_moves]. rewrite !H. reflexivity.
Defined.

(** C1 as stated fails: on the board of the scenario the guard of the
    step [r] is false at the start, the cell to the right of the player
    holding the box, and the one move enabled is the push [R]. *)
Lemma step_right_not_enabled :
  parse_xsb_board round_trip_board = Ok round_trip_parsed
  /\ enabled_first round_trip_parsed (1, 1)%Z Move_r = false
  /\ enabled_first round_trip_parsed (1, 1)%Z Move_R = true
  /\ ~ (enabled_first round_trip_parsed (1, 1)%Z Move_r = true
        /\ forall m, m <> Move_r ->
             enabled_first round_trip_parsed (1, 1)%Z m = false).
Proof.
  split; [vm_compute; reflexivity|].
  split; [vm_compute; reflexivity|].
  split; [vm_compute; reflexivity|].
  intros [H _]. vm_compute in H. discriminate H.
Qed.

(** * Further properties *)

(** ** The parser: what a board holds *)

Lemma scan_cells_cons st c cs :
  scan_cells st (c :: cs)
  = scan_cells (scan_cell (snd (fst c)) st (fst (fst c), snd c)) cs.
Proof. reflexivity. Qed.

Lemma boxes_scan_cells cs : forall st,
  boxes (scan_cells st cs)
  = (boxes st ++ map fst (filter (fun c => is_box_char (snd c)) cs))%list.
Proof.
  induction cs as [|c cs IH]; intro st.
  - cbn. now rewrite app_nil_r.
  - rewrite scan_cells_cons, IH. cbn [filter]. unfold scan_cell, is_box_char.
    destruct c as [[x y] ch]. cbn [fst snd].
    destruct (Ascii.eqb ch "#");
      destruct (in_chars ch ["."; "+"; "*"]%char);
      destruct (in_chars ch ["$"; "*"]%char);
      destruct (in_chars ch ["@"; "+"]%char);
      cbn [boxes map fst]; rewrite <- ?app_assoc; reflexivity.
Qed.

Lemma set_add_In p q s : In q (set_add p s) <-> In q s \/ q = p.
Proof.
  unfold set_add. destruct (existsb (pos_eqb p) s) eqn:E.
  - split; [now left|]. intros [H | ->]; [exact H|].
    apply existsb_exists in E. destruct E as (r & Hr & E).
    unfold pos_eqb in E. apply andb_prop in E. destruct E as [E1 E2].
    apply Z.eqb_eq in E1, E2. destruct p, r. cbn in E1, E2. now subst.
  - rewrite in_app_iff. cbn. intuition.
Qed.

Lemma walls_scan_cells cs : forall st p,
  In p (walls (scan_cells st cs))
  <-> In p (walls st)
      \/ In p (map fst (filter (fun c => is_wall_char (snd c)) cs)).
Proof.
  induction cs as [|c cs IH]; intros st p.
  - cbn. tauto.
  - rewrite scan_cells_cons, IH. cbn [filter]. unfold scan_cell, is_wall_char.
    destruct c as [[x y] ch]. cbn [fst snd].
    destruct (Ascii.eqb ch "#").
    + destruct (in_chars ch ["$"; "*"]%char);
        destruct (in_chars ch ["@"; "+"]%char);
        cbn [walls map fst]; rewrite set_add_In; cbn [In]; intuition.
    + destruct (in_chars ch ["."; "+"; "*"]%char);
        destruct (in_chars ch ["$"; "*"]%char);
        destruct (in_chars ch ["@"; "+"]%char);
        cbn [walls]; tauto.
Qed.

Lemma scan_cell_grid y st xc :
  board (scan_cell y st xc) = board st
  /\ width (scan_cell y st xc) = width st
  /\ height (scan_cell y st xc) = height st.
Proof.
  unfold scan_cell.
  destruct (Ascii.eqb (snd xc) "#");
    destruct (in_chars (snd xc) ["."; "+"; "*"]%char);
    destruct (in_chars (snd xc) ["$"; "*"]%char);
    destruct (in_chars (snd xc) ["@"; "+"]%char); auto.
Qed.

Lemma scan_row_grid y xcs : forall st,
  board (fold_left (scan_cell y) xcs st) = board st
  /\ width (fold_left (scan_cell y) xcs st) = width st
  /\ height (fold_left (scan_cell y) xcs st) = height st.
Proof.
  induction xcs as [|xc xcs IH]; intro st; [auto|].
  cbn [fold_left]. destruct (IH (scan_cell y st xc)) as (-> & -> & ->).
  apply scan_cell_grid.
Qed.

Lemma scan_lines_grid w yls : forall st,
  board (fold_left (scan_line w) yls st)
  = (board st
     ++ map (fun yl : Z * string =>
               list_ascii_of_string (ljust (snd yl) w)) yls)%list
  /\ width (fold_left (scan_line w) yls st) = width st
  /\ height (fold_left (scan_line w) yls st) = height st.
Proof.
  induction yls as [|yl yls IH]; intro st.
  - cbn. now rewrite app_nil_r.
  - cbn [fold_left map]. destruct (IH (scan_line w st yl)) as (-> & -> & ->).
    unfold scan_line.
    destruct (scan_row_grid (fst yl)
                (enumerate 0 (list_ascii_of_string (ljust (snd yl) w)))
                (mkBoard (board st ++ [list_ascii_of_string (ljust (snd yl) w)])
                   (width st) (height st) (walls st) (targets st) (boxes st)
                   (player st))) as (-> & -> & ->).
    cbn [board width height]. rewrite <- app_assoc. auto.
Qed.

Lemma map_snd_enumerate {A B : Type} (f : A -> B) (l : list A) : forall k,
  map (fun ia : Z * A => f (snd ia)) (enumerate k l) = map f l.
Proof.
  induction l as [|a l IH]; intro k; [reflexivity|].
  cbn [enumerate map snd]. now rewrite IH.
Qed.

(** Every field of the board a parse returns, in terms of the kept lines
    and their cells. *)
Lemma parse_fields content b :
  parse_xsb_board content = Ok b ->
  exists w,
    max_len (board_lines content) = Some w
    /\ width b = Z.of_nat w
    /\ height b = Z.of_nat (List.length (board_lines content))
    /\ board b
       = map (fun l => list_ascii_of_string (ljust l w)) (board_lines content)
    /\ (forall p, In p (walls b)
          <-> In p (map fst (filter (fun c => is_wall_char (snd c))
                                    (cells w (board_lines content)))))
    /\ targets b
       = map fst (filter (fun c => is_target_char (snd c))
                         (cells w (board_lines content)))
    /\ boxes b
       = map fst (filter (fun c => is_box_char (snd c))
                         (cells w (board_lines content)))
    /\ player b = List.last (map Some (agent_markers content)) None.
Proof.
  intro P. destruct (parse_cells content b P) as (w & M & Ht & Hp).
  exists w. split; [exact M|].
  unfold parse_xsb_board in P. rewrite M in P. injection P as <-.
  set (st0 := mkBoard [] (Z.of_nat w)
                (Z.of_nat (List.length (board_lines content))) [] [] [] None)
    in *.
  destruct (scan_lines_grid w (enumerate 0 (board_lines content)) st0)
    as (Hb & Hw & Hh).
  destruct (scan_lines_fields w (enumerate 0 (board_lines content)) st0 st0
              eq_refl eq_refl eq_refl eq_refl) as (Hwalls & _ & Hboxes & _).
  fold (cells w (board_lines content)) in Hwalls, Hboxes.
  split; [exact Hw|]. split; [exact Hh|]. split.
  { rewrite Hb. cbn [board st0 app].
    apply (map_snd_enumerate (fun l => list_ascii_of_string (ljust l w))). }
  split.
  { intro p. rewrite Hwalls, walls_scan_cells. cbn [walls st0 In]. tauto. }
  split; [exact Ht|]. split; [|exact Hp].
  rewrite Hboxes, boxes_scan_cells. reflexivity.
Qed.

Lemma enumerate_bounds {A : Type} (l : list A) : forall k ia,
  In ia (enumerate k l) ->
  (k <= fst ia < k + Z.of_nat (List.length l))%Z.
Proof.
  induction l as [|a l IH]; intros k ia H; [destruct H|].
  cbn [List.length]. destruct H as [<- | H]; [cbn; lia|].
  apply IH in H. lia.
Qed.

Lemma length_chars s :
  List.length (list_ascii_of_string s) = String.length s.
Proof. induction s as [|c s IH]; cbn; congruence. Qed.

Lemma length_append (s1 s2 : string) :
  String.length (s1 ++ s2) = (String.length s1 + String.length s2)%nat.
Proof. induction s1 as [|c s1 IH]; cbn; congruence. Qed.

Lemma length_spaces k : String.length (spaces k) = k.
Proof. induction k as [|k IH]; cbn; congruence. Qed.

Lemma length_ljust s w :
  String.length (ljust s w) = Nat.max (String.length s) w.
Proof. unfold ljust. rewrite length_append, length_spaces. lia. Qed.

Lemma fold_max_ge l : forall a,
  (a <= fold_left Nat.max l a)%nat
  /\ forall x, In x l -> (x <= fold_left Nat.max l a)%nat.
Proof.
  induction l as [|y l IH]; intro a; cbn [fold_left].
  - split; [lia | intros x []].
  - destruct (IH (Nat.max a y)) as [H1 H2]. split; [lia|].
    intros x [<- | Hx]; [lia | now apply H2].
Qed.

Lemma fold_max_attained l : forall a,
  fold_left Nat.max l a = a \/ In (fold_left Nat.max l a) l.
Proof.
  induction l as [|y l IH]; intro a; cbn [fold_left]; [now left|].
  destruct (IH (Nat.max a y)) as [H | H]; [|right; now right].
  rewrite H. destruct (Nat.max_spec a y) as [[_ ->] | [_ ->]];
    [right; now left | now left].
Qed.

Lemma max_len_ge lines w l :
  max_len lines = Some w -> In l lines -> (String.length l <= w)%nat.
Proof.
  unfold max_len. destruct lines as [|l0 ls]; [discriminate|].
  intro E. injection E as <-.
  destruct (fold_max_ge (map String.length ls) (String.length l0))
    as [H1 H2].
  intros [<- | H]; [exact H1|]. apply H2. now apply in_map.
Qed.

Lemma max_len_attained lines w :
  max_len lines = Some w ->
  exists l, In l lines /\ String.length l = w.
Proof.
  unfold max_len. destruct lines as [|l0 ls]; [discriminate|].
  intro E. injection E as <-.
  destruct (fold_max_attained (map String.length ls) (String.length l0))
    as [H | H].
  - exists l0. split; [now left | now rewrite H].
  - apply in_map_iff in H. destruct H as (l & E & Hl).
    exists l. split; [now right | exact E].
Qed.

(** The cells of a file lie within its width and its number of lines. *)
Lemma cells_bounds lines w c :
  max_len lines = Some w -> In c (cells w lines) ->
  (0 <= fst (fst c) < Z.of_nat w)%Z
  /\ (0 <= snd (fst c) < Z.of_nat (List.length lines))%Z.
Proof.
  intros M H. unfold cells in H. apply in_flat_map in H.
  destruct H as (yl & Hyl & H). unfold row_cells in H.
  apply in_map_iff in H. destruct H as (xc & <- & Hxc). cbn [fst snd].
  pose proof (enumerate_bounds _ _ _ Hyl) as By.
  pose proof (enumerate_bounds _ _ _ Hxc) as Bx.
  apply enumerate_In in Hyl.
  rewrite length_chars, length_ljust in Bx.
  pose proof (max_len_ge lines w (snd yl) M Hyl). lia.
Qed.

Lemma last_some_In {A : Type} (l : list A) (p : A) :
  List.last (map Some l) None = Some p -> In p l.
Proof.
  induction l as [|a l IH]; [discriminate|].
  cbn [map]. rewrite last_cons_some. destruct l as [|a' l].
  - cbn. intro E. injection E as ->. now left.
  - intro E. right. apply IH. cbn [map]. rewrite last_cons_some.
    cbn [map] in E. rewrite last_cons_some in E. exact E.
Qed.

Lemma agent_markers_cells content w p :
  max_len (board_lines content) = Some w ->
  In p (agent_markers content) ->
  exists ch, In (p, ch) (cells w (board_lines content))
             /\ is_agent_marker ch = true.
Proof.
  unfold agent_markers. intros -> H. apply in_map_iff in H.
  destruct H as ([q ch] & <- & H). apply filter_In in H.
  exists ch. exact H.
Qed.

Lemma filter_cells_In (f : ascii -> bool) (cs : list ((Z * Z) * ascii)) p :
  In p (map fst (filter (fun c => f (snd c)) cs))
  <-> exists ch, In (p, ch) cs /\ f ch = true.
Proof.
  rewrite in_map_iff. split.
  - intros ([q ch] & <- & H). apply filter_In in H. now exists ch.
  - intros (ch & H & F). exists (p, ch). split; [reflexivity|].
    apply filter_In. now split.
Qed.

Lemma parsed_on_board content b :
  parse_xsb_board content = Ok b ->
  (forall p, In p (walls b) -> on_board b p)
  /\ (forall p, In p (targets b) -> on_board b p)
  /\ (forall p, In p (boxes b) -> on_board b p)
  /\ (forall p, player b = Some p -> on_board b p).
Proof.
  intro P.
  destruct (parse_fields content b P)
    as (w & M & Hw & Hh & _ & Hwalls & Ht & Hb & Hp).
  assert (B : forall p ch, In (p, ch) (cells w (board_lines content)) ->
                           on_board b p).
  { intros p ch H. unfold on_board. rewrite Hw, Hh.
    apply (cells_bounds _ _ _ M H). }
  split; [|split; [|split]].
  - intros p H. apply Hwalls, filter_cells_In in H.
    destruct H as (ch & H & _). eapply B, H.
  - intros p H. rewrite Ht in H. apply filter_cells_In in H.
    destruct H as (ch & H & _). eapply B, H.
  - intros p H. rewrite Hb in H. apply filter_cells_In in H.
    destruct H as (ch & H & _). eapply B, H.
  - intros p H. rewrite Hp in H. apply last_some_In in H.
    destruct (agent_markers_cells content w p M H) as (ch & H' & _).
    eapply B, H'.
Qed.

(** X1. Every wall, target and box of a parsed board, and its player, lies
    within the dimensions of the board. *)
Theorem parsed_positions_on_board (content : string) (b : Board) :
  parse_xsb_board content = Ok b ->
  (forall p, In p (walls b) -> on_board b p)
  /\ (forall p, In p (targets b) -> on_board b p)
  /\ (forall p, In p (boxes b) -> on_board b p)
  /\ (forall p, player b = Some p -> on_board b p).
Proof. exact (parsed_on_board content b). Qed.

Lemma parsed_positions_on_board_witness :
  on_board round_trip_parsed (2, 1).
Proof.
  destruct (parsed_positions_on_board round_trip_board round_trip_parsed)
    as (_ & _ & H & _).
  - vm_compute. reflexivity.
  - apply H. cbn. now left.
Defined.

Lemma key_lt_irrefl p : ~ key_lt p p.
Proof. unfold key_lt. lia. Qed.

Lemma sorted_cells_unique (cs : list ((Z * Z) * ascii)) :
  StronglySorted (fun c c' => key_lt (fst c) (fst c')) cs ->
  forall p c1 c2, In (p, c1) cs -> In (p, c2) cs -> c1 = c2.
Proof.
  induction 1 as [|c cs S IH F]; intros p c1 c2 H1 H2; [destruct H1|].
  rewrite Forall_forall in F.
  destruct H1 as [-> | H1], H2 as [E | H2].
  - congruence.
  - apply F in H2. cbn in H2. now apply key_lt_irrefl in H2.
  - subst c. apply F in H1. cbn in H1. now apply key_lt_irrefl in H1.
  - eapply IH; eassumption.
Qed.

Lemma sorted_NoDup (l : list (Z * Z)) :
  StronglySorted key_lt l -> NoDup l.
Proof.
  induction 1 as [|p l S IH F]; constructor; [|exact IH].
  intro H. rewrite Forall_forall in F. apply F in H.
  now apply key_lt_irrefl in H.
Qed.

Lemma set_add_NoDup p s : NoDup s -> NoDup (set_add p s).
Proof.
  intro N. unfold set_add. destruct (existsb (pos_eqb p) s) eqn:E; [exact N|].
  apply NoDup_app; [exact N | repeat constructor; intros [] |].
  intros q Hq [E' | []]. subst q.
  assert (existsb (pos_eqb p) s = true); [|congruence].
  apply existsb_exists. exists p. split; [exact Hq|].
  unfold pos_eqb. now rewrite !Z.eqb_refl.
Qed.

Lemma walls_scan_cells_NoDup cs : forall st,
  NoDup (walls st) -> NoDup (walls (scan_cells st cs)).
Proof.
  induction cs as [|c cs IH]; intros st N; [exact N|].
  rewrite scan_cells_cons. apply IH. unfold scan_cell.
  destruct c as [[x y] ch]. cbn [fst snd].
  destruct (Ascii.eqb ch "#");
    destruct (in_chars ch ["."; "+"; "*"]%char);
    destruct (in_chars ch ["$"; "*"]%char);
    destruct (in_chars ch ["@"; "+"]%char);
    cbn [walls]; try exact N; now apply set_add_NoDup.
Qed.

Lemma parsed_walls_NoDup content b :
  parse_xsb_board content = Ok b -> NoDup (walls b).
Proof.
  unfold parse_xsb_board.
  destruct (max_len (board_lines content)) as [w|]; [|discriminate].
  intro E. injection E as <-.
  set (st0 := mkBoard [] (Z.of_nat w)
                (Z.of_nat (List.length (board_lines content))) [] [] [] None).
  destruct (scan_lines_fields w (enumerate 0 (board_lines content)) st0 st0
              eq_refl eq_refl eq_refl eq_refl) as (-> & _).
  apply walls_scan_cells_NoDup. constructor.
Qed.

Lemma parsed_scan_order content b :
  parse_xsb_board content = Ok b ->
  StronglySorted key_lt (boxes b) /\ StronglySorted key_lt (targets b)
  /\ NoDup (boxes b) /\ NoDup (targets b) /\ NoDup (walls b).
Proof.
  intro P.
  destruct (parse_fields content b P)
    as (w & M & _ & _ & _ & _ & Ht & Hb & _).
  assert (Sb : StronglySorted key_lt (boxes b)).
  { rewrite Hb. apply StronglySorted_map, StronglySorted_filter.
    apply (cells_from_sorted w (board_lines content) 0). }
  assert (St : StronglySorted key_lt (targets b)).
  { rewrite Ht. apply StronglySorted_map, StronglySorted_filter.
    apply (cells_from_sorted w (board_lines content) 0). }
  repeat split; auto using sorted_NoDup.
  eapply parsed_walls_NoDup, P.
Qed.

(** X2. The boxes of a parsed board are the positions of the cells of the
    file that hold [$] or [*], its targets those of the cells that hold
    [.], [+] or [*], both in scan order, row by row and left to right; so
    box 1 is the first box met by the scan, and both lists are strictly
    increasing in (row, column), each position once.  The walls are the
    positions of the cells that hold [#], each once. *)
Theorem parsed_lists_in_scan_order (content : string) (b : Board) :
  parse_xsb_board content = Ok b ->
  (exists w,
     max_len (board_lines content) = Some w
     /\ boxes b
        = map fst (filter (fun c => is_box_char (snd c))
                          (cells w (board_lines content)))
     /\ targets b
        = map fst (filter (fun c => is_target_char (snd c))
                          (cells w (board_lines content)))
     /\ (forall p, In p (walls b)
           <-> In p (map fst (filter (fun c => is_wall_char (snd c))
                                     (cells w (board_lines content)))))
     /\ StronglySorted key_lt (map fst (cells w (board_lines content))))
  /\ StronglySorted key_lt (boxes b) /\ StronglySorted key_lt (targets b)
  /\ NoDup (boxes b) /\ NoDup (targets b) /\ NoDup (walls b).
Proof.
  intro P. split; [|exact (parsed_scan_order content b P)].
  destruct (parse_fields content b P)
    as (w & M & _ & _ & _ & Hw & Ht & Hb & _).
  exists w. repeat (split; [assumption|]).
  apply StronglySorted_map.
  apply (cells_from_sorted w (board_lines content) 0).
Qed.

Lemma parsed_lists_in_scan_order_witness :
  exists w,
    max_len (board_lines ("#$.$" ++ nl ++ "$@*#")) = Some w
    /\ [(1, 0); (3, 0); (0, 1); (2, 1)]
       = map fst (filter (fun c => is_box_char (snd c))
                         (cells w (board_lines ("#$.$" ++ nl ++ "$@*#")))).
Proof.
  destruct (parsed_lists_in_scan_order ("#$.$" ++ nl ++ "$@*#")
              (mkBoard (map list_ascii_of_string ["#$.$"; "$@*#"]) 4 2
                       [(0, 0); (3, 1)] [(2, 0); (2, 1)]
                       [(1, 0); (3, 0); (0, 1); (2, 1)] (Some (1, 1))))
    as ((w & M & Hb & _) & _).
  - vm_compute. reflexivity.
  - exists w. split; [exact M | exact Hb].
Defined.

Lemma wall_char_only c :
  is_wall_char c = true ->
  is_target_char c = false /\ is_box_char c = false
  /\ is_agent_marker c = false.
Proof.
  unfold is_wall_char. intro E. apply Ascii.eqb_eq in E. subst c.
  repeat split.
Qed.

Lemma agent_char_no_box c :
  is_agent_marker c = true -> is_box_char c = false.
Proof.
  unfold is_agent_marker, in_chars. cbn [existsb]. intro H.
  repeat (apply orb_prop in H; destruct H as [H | H];
          [apply Ascii.eqb_eq in H; subst c; reflexivity|]).
  discriminate.
Qed.

Lemma parsed_exclusive content b :
  parse_xsb_board content = Ok b ->
  (forall p, In p (walls b) ->
     ~ In p (targets b) /\ ~ In p (boxes b) /\ player b <> Some p)
  /\ (forall p, player b = Some p -> ~ In p (boxes b)).
Proof.
  intro P.
  destruct (parse_fields content b P)
    as (w & M & _ & _ & _ & Hwalls & Ht & Hb & Hp).
  pose proof (sorted_cells_unique _
                (proj1 (cells_from_sorted w (board_lines content) 0))) as U.
  fold (cells w (board_lines content)) in U.
  assert (A : forall p, player b = Some p ->
            exists ch, In (p, ch) (cells w (board_lines content))
                       /\ is_agent_marker ch = true).
  { intros p H. rewrite Hp in H. apply last_some_In in H.
    now apply agent_markers_cells. }
  split.
  - intros p H. apply Hwalls, filter_cells_In in H.
    destruct H as (ch & H & W).
    destruct (wall_char_only ch W) as (T & B & G).
    split; [|split].
    + rewrite Ht. intro H'. apply filter_cells_In in H'.
      destruct H' as (ch' & H' & T').
      rewrite (U p ch' ch H' H) in T'. congruence.
    + rewrite Hb. intro H'. apply filter_cells_In in H'.
      destruct H' as (ch' & H' & B').
      rewrite (U p ch' ch H' H) in B'. congruence.
    + intro H'. destruct (A p H') as (ch' & H'' & G').
      rewrite (U p ch' ch H'' H) in G'. congruence.
  - intros p H. destruct (A p H) as (ch & H' & G).
    rewrite Hb. intro H''. apply filter_cells_In in H''.
    destruct H'' as (ch' & H'' & B').
    rewrite (U p ch' ch H'' H') in B'.
    rewrite (agent_char_no_box ch G) in B'. discriminate.
Qed.

(** X3. On a parsed board no wall is a target, a box or the player, and
    the player is on no box: a cell has one character, and [#] marks a
    wall alone, [@] and [+] no box. *)
Theorem parsed_cells_exclusive (content : string) (b : Board) :
  parse_xsb_board content = Ok b ->
  (forall p, In p (walls b) ->
     ~ In p (targets b) /\ ~ In p (boxes b) /\ player b <> Some p)
  /\ (forall p, player b = Some p -> ~ In p (boxes b)).
Proof. exact (parsed_exclusive content b). Qed.

Lemma parsed_cells_exclusive_witness :
  ~ In (1, 1) (boxes round_trip_parsed).
Proof.
  destruct (parsed_cells_exclusive round_trip_board round_trip_parsed)
    as (_ & H).
  - vm_compute. reflexivity.
  - apply H. reflexivity.
Defined.

(** ** Blank lines, kept lines *)

Lemma lstrip_empty s : lstrip s = "" <-> all_chars isspace s = true.
Proof.
  unfold all_chars. induction s as [|c s IH]; cbn [lstrip]; [easy|].
  cbn [list_ascii_of_string forallb].
  destruct (isspace c); [exact IH | easy].
Qed.

Lemma lstrip_head s c t : lstrip s = String c t -> isspace c = false.
Proof.
  induction s as [|a s IH]; cbn [lstrip]; [discriminate|].
  destruct (isspace a) eqn:E; [exact IH|]. intro H. injection H as <- _.
  exact E.
Qed.

(** A line is blank for the parser exactly when it holds white space
    alone. *)
Lemma strip_empty s : strip s = "" <-> all_chars isspace s = true.
Proof.
  rewrite <- lstrip_empty. unfold strip.
  destruct (lstrip s) as [|c t] eqn:E; [easy|].
  cbn [rstrip]. rewrite (lstrip_head s c t E), andb_false_r. easy.
Qed.

Lemma all_chars_forall f s :
  all_chars f s = true
  <-> forall c, In c (list_ascii_of_string s) -> f c = true.
Proof. unfold all_chars. apply forallb_forall. Qed.

Lemma chars_rstrip_nl_keep s c :
  In c (list_ascii_of_string s) -> c <> LF ->
  In c (list_ascii_of_string (rstrip_nl s)).
Proof.
  intros H N. induction s as [|a s IH]; [destruct H|].
  cbn [rstrip_nl]. destruct H as [-> | H].
  - replace (Ascii.eqb c LF) with false; [rewrite andb_false_r; now left|].
    symmetry. now apply Ascii.eqb_neq.
  - specialize (IH H). destruct (rstrip_nl s) as [|a' r]; [destruct IH|].
    cbn [String.eqb andb]. now right.
Qed.

Lemma file_lines_cover s : forall c,
  In c (list_ascii_of_string s) ->
  exists l, In l (file_lines s) /\ In c (list_ascii_of_string l).
Proof.
  induction s as [|a s IH]; intros c H; [destruct H|].
  cbn [file_lines]. destruct H as [-> | H].
  - destruct (Ascii.eqb c LF).
    + exists (String c ""). split; now left.
    + destruct (file_lines s) as [|l0 ls].
      * exists (String c ""). split; now left.
      * exists (String c l0). split; now left.
  - destruct (IH c H) as (l & Hl & Hc).
    destruct (Ascii.eqb a LF); [exists l; split; [now right | exact Hc]|].
    destruct (file_lines s) as [|l0 ls]; [destruct Hl|].
    destruct Hl as [<- | Hl].
    + exists (String a l0). split; [now left | now right].
    + exists l. split; [now right | exact Hc].
Qed.

(** A character of the file that is no white space is on a kept line. *)
Lemma board_lines_cover content c :
  In c (list_ascii_of_string content) -> isspace c = false ->
  exists l, In l (board_lines content) /\ In c (list_ascii_of_string l).
Proof.
  intros H N. destruct (file_lines_cover content c H) as (l0 & Hl0 & Hc).
  exists (rstrip_nl l0). split.
  - unfold board_lines. apply in_map, filter_In. split; [exact Hl0|].
    apply negb_true_iff. apply String.eqb_neq. intro E.
    apply strip_empty in E. rewrite all_chars_forall in E.
    rewrite (E c Hc) in N. discriminate.
  - apply chars_rstrip_nl_keep; [exact Hc|]. intros ->. discriminate.
Qed.

Lemma board_lines_not_blank content l :
  In l (board_lines content) ->
  exists c, In c (list_ascii_of_string l) /\ isspace c = false.
Proof.
  unfold board_lines. intro H. apply in_map_iff in H.
  destruct H as (l0 & <- & H). apply filter_In in H. destruct H as [_ H].
  apply negb_true_iff, String.eqb_neq in H.
  assert (A : all_chars isspace l0 <> true) by (now rewrite <- strip_empty).
  unfold all_chars in A.
  destruct (forallb isspace (list_ascii_of_string l0)) eqn:F; [congruence|].
  clear A H. induction l0 as [|a l0 IH]; [discriminate|].
  cbn [list_ascii_of_string forallb] in F.
  destruct (isspace a) eqn:E.
  - cbn [andb] in F. destruct (IH F) as (c & Hc & N). exists c.
    split; [|exact N]. cbn [rstrip_nl].
    destruct (rstrip_nl l0) as [|a' r]; [destruct Hc|].
    cbn [String.eqb andb]. now right.
  - exists a. split; [|exact E].
    apply chars_rstrip_nl_keep; [now left|]. intros ->. discriminate.
Qed.

(** The parser keeps no line exactly when the file holds white space
    alone. *)
Lemma board_lines_empty content :
  board_lines content = [] <-> all_chars isspace content = true.
Proof.
  rewrite all_chars_forall. split.
  - intros E c H. destruct (isspace c) eqn:N; [reflexivity|].
    destruct (board_lines_cover content c H N) as (l & Hl & _).
    rewrite E in Hl. destruct Hl.
  - intro A. destruct (board_lines content) as [|l ls] eqn:E; [reflexivity|].
    destruct (board_lines_not_blank content l) as (c & Hc & N).
    { rewrite E. now left. }
    assert (Hl : In l (board_lines content)) by (rewrite E; now left).
    rewrite (A c (chars_board_lines content l c Hl Hc)) in N. discriminate.
Qed.

(** X4. The parser raises, and then [ValueError], exactly on the files
    that hold nothing but white space (the empty file among them); on
    every other file it returns a board. *)
Theorem parse_fails_on_blank_files (content : string) :
  (all_chars isspace content = true
   -> parse_xsb_board content = Raise ValueError)
  /\ (all_chars isspace content = false
      -> exists b, parse_xsb_board content = Ok b).
Proof.
  unfold parse_xsb_board, max_len. split; intro A.
  - apply board_lines_empty in A. now rewrite A.
  - destruct (board_lines content) eqn:E; [|eexists; reflexivity].
    apply board_lines_empty in E. congruence.
Qed.

Lemma parse_fails_on_blank_files_witness :
  parse_xsb_board (" " ++ nl ++ nl) = Raise ValueError
  /\ exists b, parse_xsb_board round_trip_board = Ok b.
Proof.
  split.
  - apply (parse_fails_on_blank_files (" " ++ nl ++ nl)). reflexivity.
  - apply (parse_fails_on_blank_files round_trip_board). reflexivity.
Defined.

(** X5. The grid of a parsed board is a rectangle of [height] rows of
    [width] characters, both positive; the width is the length of a
    longest kept line, the height the number of kept lines. *)
Theorem parsed_grid_is_rectangle (content : string) (b : Board) :
  parse_xsb_board content = Ok b ->
  (0 < width b)%Z /\ (0 < height b)%Z
  /\ height b = Z.of_nat (List.length (board_lines content))
  /\ Z.of_nat (List.length (board b)) = height b
  /\ (forall row, In row (board b) -> Z.of_nat (List.length row) = width b)
  /\ (forall l, In l (board_lines content) ->
        (Z.of_nat (String.length l) <= width b)%Z)
  /\ (exists l, In l (board_lines content)
                /\ Z.of_nat (String.length l) = width b).
Proof.
  intro P.
  destruct (parse_fields content b P) as (w & M & Hw & Hh & Hb & _).
  destruct (max_len_attained _ _ M) as (l & Hl & El).
  assert (Wpos : (0 < w)%nat).
  { destruct (board_lines_not_blank content l Hl) as (c & Hc & _).
    rewrite <- El, <- length_chars.
    destruct (list_ascii_of_string l); [destruct Hc | cbn; lia]. }
  split; [lia|]. split.
  { rewrite Hh. destruct (board_lines content); [destruct Hl | cbn; lia]. }
  split; [exact Hh|]. split; [now rewrite Hb, length_map, Hh|].
  split; [|split].
  - intros row H. rewrite Hb in H. apply in_map_iff in H.
    destruct H as (l' & <- & Hl').
    rewrite length_chars, length_ljust, Hw.
    pose proof (max_len_ge _ _ _ M Hl'). lia.
  - intros l' Hl'. rewrite Hw. pose proof (max_len_ge _ _ _ M Hl'). lia.
  - exists l. split; [exact Hl | now rewrite Hw, El].
Qed.

Lemma parsed_grid_is_rectangle_witness :
  (0 < width round_trip_parsed)%Z /\ (0 < height round_trip_parsed)%Z.
Proof.
  destruct (parsed_grid_is_rectangle round_trip_board round_trip_parsed)
    as (H1 & H2 & _).
  - vm_compute. reflexivity.
  - split; assumption.
Defined.

(** ** Parsing, then synthesizing *)

Lemma enumerate_has {A : Type} (l : list A) a : forall k,
  In a l -> exists i, In (i, a) (enumerate k l).
Proof.
  induction l as [|a' l IH]; intros k H; [destruct H|].
  destruct H as [-> | H].
  - exists k. now left.
  - destruct (IH (k + 1)%Z H) as (i & Hi). exists i. now right.
Qed.

Lemma cells_cover w lines l c :
  In l lines -> In c (list_ascii_of_string l) ->
  exists p, In (p, c) (cells w lines).
Proof.
  intros Hl Hc. destruct (enumerate_has lines l 0 Hl) as (y & Hy).
  assert (Hc' : In c (list_ascii_of_string (ljust l w))).
  { unfold ljust. rewrite chars_app. apply in_or_app. now left. }
  destruct (enumerate_has _ c 0 Hc') as (x & Hx).
  exists (x, y). unfold cells. apply in_flat_map. exists (y, l).
  split; [exact Hy|]. unfold row_cells. apply in_map_iff.
  exists (x, c). split; [reflexivity | exact Hx].
Qed.

Lemma agent_marker_not_space c :
  is_agent_marker c = true -> isspace c = false.
Proof.
  unfold is_agent_marker, in_chars. cbn [existsb]. intro H.
  repeat (apply orb_prop in H; destruct H as [H | H];
          [apply Ascii.eqb_eq in H; subst c; reflexivity|]).
  discriminate.
Qed.

(** A file with an agent marker has a kept line, and a marker among its
    cells. *)
Lemma marker_found content :
  has_agent_marker content = true ->
  board_lines content <> [] /\ agent_markers content <> [].
Proof.
  unfold has_agent_marker. intro H. apply existsb_exists in H.
  destruct H as (c & Hc & G).
  destruct (board_lines_cover content c Hc (agent_marker_not_space c G))
    as (l & Hl & Hcl).
  split; [intro E; rewrite E in Hl; destruct Hl|].
  unfold agent_markers, max_len.
  destruct (board_lines content) as [|l0 ls] eqn:E; [destruct Hl|].
  rewrite <- E in *.
  destruct (cells_cover
              (fold_left Nat.max (map String.length ls) (String.length l0))
              (board_lines content) l c Hl Hcl) as (p & Hp).
  intro N. apply map_eq_nil in N.
  assert (F : In (p, c) (filter (fun c0 : Z * Z * ascii =>
                                   is_agent_marker (snd c0))
              (cells (fold_left Nat.max (map String.length ls)
                        (String.length l0)) (board_lines content)))).
  { apply filter_In. split; [exact Hp | exact G]. }
  rewrite N in F. destruct F.
Qed.

Lemma last_some_nonempty {A : Type} (l : list A) :
  l <> [] -> List.last (map Some l) None <> None.
Proof.
  induction l as [|a l IH]; [congruence|]. intros _.
  cbn [map]. rewrite last_cons_some.
  destruct l as [|a' l]; [discriminate|].
  cbn [map]. rewrite last_cons_some.
  specialize (IH ltac:(discriminate)). cbn [map] in IH.
  now rewrite last_cons_some in IH.
Qed.

(** X6. What parsing a file and synthesizing its model comes to.  A text
    is returned exactly when the file has an agent marker; the parser
    raises [ValueError] exactly when the file holds white space alone; the
    synthesizer raises [TypeError] on every other file, those with a kept
    line and no agent marker. *)
Theorem compile_board_outcome (content : string) :
  match compile_board content with
  | Ok _ => has_agent_marker content = true
  | Raise ValueError => all_chars isspace content = true
  | Raise TypeError =>
      has_agent_marker content = false
      /\ all_chars isspace content = false
  end.
Proof.
  unfold compile_board.
  destruct (parse_xsb_board content) as [b|e] eqn:P.
  - destruct (parse_cells content b P) as (w & M & _ & Hp).
    assert (NB : all_chars isspace content = false).
    { destruct (all_chars isspace content) eqn:A; [|reflexivity].
      apply board_lines_empty in A. rewrite A in M. discriminate. }
    unfold generate_smv_model. cbn [board_after player].
    destruct (has_agent_marker content) eqn:G.
    + destruct (marker_found content G) as [_ N].
      apply last_some_nonempty in N. rewrite <- Hp in N.
      destruct (player b); [reflexivity | congruence].
    + rewrite (no_marker_no_agent content G) in Hp. cbn in Hp.
      rewrite Hp. cbn [snd]. now split.
  - unfold parse_xsb_board, max_len in P.
    destruct (board_lines content) eqn:E; [|discriminate].
    injection P as <-. now apply board_lines_empty.
Qed.

(** ** The sort of line 81 *)

Lemma key_leb_total p q : key_leb p q = false -> key_leb q p = true.
Proof.
  unfold key_leb. intro H. apply orb_false_iff in H. destruct H as [H1 H2].
  apply Z.ltb_ge in H1.
  destruct (Z.eqb_spec (snd p) (snd q)) as [E | E].
  - cbn [andb] in H2. apply Z.leb_gt in H2.
    apply orb_true_iff. right. apply andb_true_iff. split.
    + apply Z.eqb_eq. lia.
    + apply Z.leb_le. lia.
  - apply orb_true_iff. left. apply Z.ltb_lt. lia.
Qed.

Lemma key_le_trans p q r : key_le p q -> key_le q r -> key_le p r.
Proof.
  unfold key_le, key_leb. intros H1 H2.
  apply orb_true_iff in H1. apply orb_true_iff in H2.
  apply orb_true_iff.
  destruct H1 as [H1 | H1], H2 as [H2 | H2];
    rewrite ?andb_true_iff, ?Z.ltb_lt, ?Z.eqb_eq, ?Z.leb_le in *; lia.
Qed.

Lemma insert_by_key_perm p l : Permutation (insert_by_key p l) (p :: l).
Proof.
  induction l as [|q l IH]; [reflexivity|]. cbn [insert_by_key].
  destruct (key_leb p q); [reflexivity|].
  rewrite IH. apply perm_swap.
Qed.

Lemma sort_targets_perm l : Permutation (sort_targets l) l.
Proof.
  induction l as [|p l IH]; [reflexivity|]. cbn [sort_targets].
  rewrite insert_by_key_perm. now constructor.
Qed.

Lemma insert_by_key_sorted p l :
  StronglySorted key_le l -> StronglySorted key_le (insert_by_key p l).
Proof.
  induction 1 as [|q l S IH F]; cbn [insert_by_key].
  - repeat constructor.
  - destruct (key_leb p q) eqn:E.
    + constructor; [now constructor|]. constructor; [exact E|].
      revert F. apply Forall_impl. intro r. now apply key_le_trans.
    + constructor; [exact IH|].
      apply (Permutation_Forall (Permutation_sym (insert_by_key_perm p l))).
      constructor; [now apply key_leb_total | exact F].
Qed.

Lemma sort_targets_is_sorted l : StronglySorted key_le (sort_targets l).
Proof.
  induction l as [|p l IH]; [constructor|]. cbn [sort_targets].
  now apply insert_by_key_sorted.
Qed.

Lemma sort_targets_fixed l :
  StronglySorted key_le l -> sort_targets l = l.
Proof.
  induction 1 as [|p l S IH F]; [reflexivity|].
  cbn [sort_targets]. rewrite IH.
  destruct l as [|q l]; [reflexivity|].
  cbn [insert_by_key]. apply Forall_inv in F. unfold key_le in F.
  now rewrite F.
Qed.

(** X7. Whatever the board, the call leaves its targets sorted by row,
    then column, with the same positions as before, each as often as
    before, and leaves every other field as it was. *)
Theorem synthesis_sorts_targets (b : Board) :
  let b' := fst (generate_smv_model b) in
  StronglySorted key_le (targets b')
  /\ Permutation (targets b') (targets b)
  /\ board b' = board b /\ width b' = width b /\ height b' = height b
  /\ walls b' = walls b /\ boxes b' = boxes b /\ player b' = player b.
Proof.
  assert (E : fst (generate_smv_model b) = board_after b).
  { unfold generate_smv_model. now destruct (player (board_after b)). }
  cbv zeta. rewrite E. cbn [board_after targets board width height walls
                              boxes player].
  split; [apply sort_targets_is_sorted|].
  split; [apply sort_targets_perm|]. repeat split.
Qed.

(** X8. A second call on the board the first call leaves returns the same
    text, or raises the same exception, and leaves the board as the first
    did. *)
Theorem synthesis_is_repeatable (b : Board) :
  generate_smv_model (fst (generate_smv_model b)) = generate_smv_model b.
Proof.
  assert (E : fst (generate_smv_model b) = board_after b).
  { unfold generate_smv_model. now destruct (player (board_after b)). }
  rewrite E. unfold generate_smv_model.
  replace (board_after (board_after b)) with (board_after b); [reflexivity|].
  unfold board_after. cbn [board width height walls targets boxes player].
  now rewrite (sort_targets_fixed _ (sort_targets_is_sorted (targets b))).
Qed.

(** ** What the predicates say *)

Lemma cell_in_bounds_iff b x y :
  cell_in_bounds b x y = true
  <-> (0 <= x < width b)%Z /\ (0 <= y < height b)%Z.
Proof.
  unfold cell_in_bounds.
  rewrite !andb_true_iff, !Z.leb_le, !Z.ltb_lt. tauto.
Qed.

Lemma cell_is_wall_iff b x y :
  cell_is_wall b x y = true <-> In (x, y) (walls b).
Proof.
  unfold cell_is_wall. rewrite existsb_exists. split.
  - intros ([wx wy] & H & E). unfold pos_eqb in E. cbn [fst snd] in E.
    apply andb_prop in E. destruct E as [E1 E2].
    apply Z.eqb_eq in E1, E2. now subst.
  - intro H. exists (x, y). split; [exact H|].
    unfold pos_eqb. cbn [fst snd]. now rewrite !Z.eqb_refl.
Qed.

Lemma cell_has_box_iff b s x y :
  cell_has_box b s x y = true
  <-> exists i, In i (range1 (List.length (boxes b)))
                /\ box_x s i = x /\ box_y s i = y.
Proof.
  unfold cell_has_box. rewrite existsb_exists. split.
  - intros (i & H & E). apply andb_prop in E. destruct E as [E1 E2].
    apply Z.eqb_eq in E1, E2. exists i. auto.
  - intros (i & H & E1 & E2). exists i. split; [exact H|].
    subst. now rewrite !Z.eqb_refl.
Qed.

Lemma cell_free_iff b s x y :
  cell_free b s x y = true
  <-> cell_in_bounds b x y = true /\ cell_is_wall b x y = false
      /\ cell_has_box b s x y = false.
Proof.
  unfold cell_free. rewrite !andb_true_iff, !negb_true_iff. tauto.
Qed.

(** X9. The text [gen_free_cell] returns for two coordinate terms is the
    print of an expression that holds in a state exactly when the cell is
    within the board, is no wall and holds none of the boxes 1 to
    [num_boxes]; the text of [gen_box_at], of one that holds exactly when
    one of these boxes is on the cell.  Both read back as printed. *)
Theorem free_cell_text_meaning (b : Board) (s : State) (ex ey : term) :
  let n := List.length (boxes b) in
  let x := eval_term (width b) (height b) s ex in
  let y := eval_term (width b) (height b) s ey in
  gen_free_cell (render_term ex) (render_term ey) (walls b) n
  = render (free_cell ex ey (walls b) n)
  /\ gen_box_at (render_term ex) (render_term ey) n
     = render (box_at ex ey n)
  /\ reads_back (free_cell ex ey (walls b) n) = true
  /\ reads_back (box_at ex ey n) = true
  /\ (eval (width b) (height b) s (free_cell ex ey (walls b) n) = true
      <-> (0 <= x < width b)%Z /\ (0 <= y < height b)%Z
          /\ ~ In (x, y) (walls b)
          /\ forall i, In i (range1 n) ->
                       ~ (box_x s i = x /\ box_y s i = y))
  /\ (eval (width b) (height b) s (box_at ex ey n) = true
      <-> exists i, In i (range1 n) /\ box_x s i = x /\ box_y s i = y).
Proof.
  cbv zeta.
  split; [symmetry; apply render_free_cell|].
  split; [symmetry; apply render_box_at|].
  split; [apply reads_back_free_cell|].
  split; [apply reads_back_box_at|]. split.
  - change (free_cell ex ey (walls b) (List.length (boxes b)))
      with (free_at (walls b) (List.length (boxes b)) ex ey).
    rewrite eval_free_at, cell_free_iff, cell_in_bounds_iff.
    rewrite <- cell_is_wall_iff, <- not_true_iff_false.
    rewrite <- (not_true_iff_false (cell_has_box _ _ _ _)), cell_has_box_iff.
    split.
    + intros (B & W & N). repeat split; try tauto.
      intros i Hi E. apply N. now exists i.
    + intros (Bx & By & W & N). repeat split; try tauto.
      intros (i & Hi & E). now apply (N i Hi).
  - rewrite eval_box_at. apply cell_has_box_iff.
Qed.

(** ** The transition system *)

Lemma guard_selected b s :
  eval (width b) (height b) s
    (guard (walls b) (List.length (boxes b)) (move s))
  = move_possible b s.
Proof.
  rewrite eval_guard.
  replace (Move_eqb (move s) (move s)) with true; [reflexivity|].
  symmetry. now apply Move_eqb_eq.
Qed.

Lemma next_player_value b s :
  next_player_x b s
  = Some (if move_possible b s then player_x s + dx s else player_x s)%Z
  /\ next_player_y b s
     = Some (if move_possible b s then player_y s + dy s else player_y s)%Z.
Proof.
  unfold next_player_x, next_player_y, player_x_cases, player_y_cases.
  cbn [eval_cases eval eval_term eval_var px py].
  rewrite !eval_guard. unfold dx, dy.
  destruct (move s) eqn:E; cbn [Move_eqb andb delta fst snd];
    destruct (move_possible b s); rewrite ?Z.add_0_r; split; reflexivity.
Qed.

Lemma next_box_value b s i :
  next_box_x b s i
  = Some (if pushes_box b s i then box_x s i + dx s else box_x s i)%Z
  /\ next_box_y b s i
     = Some (if pushes_box b s i then box_y s i + dy s else box_y s i)%Z.
Proof.
  unfold next_box_x, next_box_y, box_x_cases, box_y_cases, pushes_box.
  cbn [eval_cases eval eval_term eval_var].
  rewrite !eval_box_guard. cbn [eval_term eval_var px py].
  unfold dx, dy.
  destruct (move s); cbn [Move_eqb andb is_push delta fst snd];
    rewrite ?Z.add_0_r;
    repeat match goal with
           | |- context [(?a + -1)%Z] =>
               replace (a + -1)%Z with (a - 1)%Z by lia
           | |- context [(?a + 2 * -1)%Z] =>
               replace (a + 2 * -1)%Z with (a - 2)%Z by lia
           | |- context [(?a + 2 * 0)%Z] =>
               replace (a + 2 * 0)%Z with a by lia
           | |- context [(?a + 2 * 1)%Z] =>
               replace (a + 2 * 1)%Z with (a + 2)%Z by lia
           end;
    split; try reflexivity;
    match goal with
    | |- context [if ?c then _ else _] => destruct c; reflexivity
    end.
Qed.

(** The state after a step, field by field. *)
Lemma step_value b s m' :
  player_x (step b s m')
  = (if move_possible b s then player_x s + dx s else player_x s)%Z
  /\ player_y (step b s m')
     = (if move_possible b s then player_y s + dy s else player_y s)%Z
  /\ (forall i, box_x (step b s m') i
         = if pushes_box b s i then box_x s i + dx s else box_x s i)%Z
  /\ (forall i, box_y (step b s m') i
         = if pushes_box b s i then box_y s i + dy s else box_y s i)%Z
  /\ move (step b s m') = m'.
Proof.
  unfold step. cbn [player_x player_y box_x box_y move].
  destruct (next_player_value b s) as [-> ->]. cbn [value_or].
  split; [reflexivity|]. split; [reflexivity|]. split; [|split].
  - intro i. now rewrite (proj1 (next_box_value b s i)).
  - intro i. now rewrite (proj2 (next_box_value b s i)).
  - reflexivity.
Qed.

Lemma delta_unit m :
  let d := delta m in
  (fst d = -1 /\ snd d = 0) \/ (fst d = 1 /\ snd d = 0)
  \/ (fst d = 0 /\ snd d = -1) \/ (fst d = 0 /\ snd d = 1).
Proof. destruct m; cbn; lia. Qed.

Lemma pushes_box_iff b s i :
  pushes_box b s i = true
  <-> is_push (move s) = true
      /\ box_x s i = (player_x s + dx s)%Z
      /\ box_y s i = (player_y s + dy s)%Z
      /\ cell_free b s (player_x s + 2 * dx s) (player_y s + 2 * dy s)
         = true.
Proof.
  unfold pushes_box. rewrite !andb_true_iff, !Z.eqb_eq. tauto.
Qed.

Lemma move_possible_push b s :
  is_push (move s) = true ->
  (move_possible b s = true
   <-> cell_has_box b s (player_x s + dx s) (player_y s + dy s) = true
       /\ cell_free b s (player_x s + 2 * dx s) (player_y s + 2 * dy s)
          = true).
Proof.
  intro P. unfold move_possible. rewrite P. apply andb_true_iff.
Qed.

Lemma move_possible_walk b s :
  is_push (move s) = false ->
  move_possible b s = cell_free b s (player_x s + dx s) (player_y s + dy s).
Proof. intro P. unfold move_possible. now rewrite P. Qed.

(** X10. For a board with a player, the text returned is the one below, with
    the case expressions of the player and of the boxes printed from
    [player_x_cases], [player_y_cases], [box_x_cases] and [box_y_cases].
    These agree.  Under a push symbol the player's case expressions move
    it exactly when the case expressions of one of the boxes 1 to
    [num_boxes] move that box; the player then takes the cell that box
    leaves.  Under a step symbol the case expressions of every box keep
    it where it is. *)
Theorem player_and_boxes_agree (b : Board) (s : State) :
  let n := List.length (boxes b) in
  let value := eval_cases (width b) (height b) s in
  (forall p, player b = Some p ->
     snd (generate_smv_model b)
     = Ok (String.concat nl
             (header_lines (width b) (height b) n
              ++ init_player_lines p
              ++ init_box_lines (boxes b) ++ [""]
              ++ (render_next PlayerX (player_x_cases (walls b) n) ++ [""])
              ++ (render_next PlayerY (player_y_cases (walls b) n) ++ [""])
              ++ flat_map
                   (fun i =>
                      render_next (BoxX i) (box_x_cases (walls b) n i)
                      ++ render_next (BoxY i) (box_y_cases (walls b) n i)
                      ++ [""])
                   (range1 n)
              ++ define_lines (sort_targets (targets b)) n
              ++ ltlspec_lines)%list))
  /\ (is_push (move s) = true ->
      ((value (player_x_cases (walls b) n),
        value (player_y_cases (walls b) n))
       = (Some (player_x s + dx s)%Z, Some (player_y s + dy s)%Z)
       <-> exists i, In i (range1 n)
             /\ (value (box_x_cases (walls b) n i),
                 value (box_y_cases (walls b) n i))
                = (Some (box_x s i + dx s)%Z, Some (box_y s i + dy s)%Z)))
  /\ (forall i, In i (range1 n) -> is_push (move s) = true ->
        (value (box_x_cases (walls b) n i),
         value (box_y_cases (walls b) n i))
        = (Some (box_x s i + dx s)%Z, Some (box_y s i + dy s)%Z) ->
        value (player_x_cases (walls b) n) = Some (box_x s i)
        /\ value (player_y_cases (walls b) n) = Some (box_y s i))
  /\ (is_push (move s) = false ->
      forall i, value (box_x_cases (walls b) n i) = Some (box_x s i)
                /\ value (box_y_cases (walls b) n i) = Some (box_y s i)).
Proof.
  cbv zeta. split; [exact (generate_rendered b)|].
  pose proof (delta_unit (move s)) as D. cbv zeta in D.
  fold (dx s) (dy s) in D.
  fold (next_player_x b s) (next_player_y b s).
  destruct (next_player_value b s) as [-> ->].
  assert (MV : (Some (if move_possible b s then player_x s + dx s
                      else player_x s),
                Some (if move_possible b s then player_y s + dy s
                      else player_y s))%Z
               = (Some (player_x s + dx s), Some (player_y s + dy s))%Z
               <-> move_possible b s = true).
  { destruct (move_possible b s); split; intro H; try reflexivity;
      try discriminate. injection H as H1 H2. lia. }
  assert (BV : forall i,
            (next_box_x b s i, next_box_y b s i)
            = (Some (box_x s i + dx s), Some (box_y s i + dy s))%Z
            <-> pushes_box b s i = true).
  { intro i. destruct (next_box_value b s i) as [-> ->].
    destruct (pushes_box b s i); split; intro H; try reflexivity;
      try discriminate. injection H as H1 H2. lia. }
  split; [|split].
  - intro P. rewrite MV, (move_possible_push b s P), cell_has_box_iff.
    split.
    + intros ((i & Hi & Ex & Ey) & F). exists i. split; [exact Hi|].
      apply (BV i). apply pushes_box_iff. auto.
    + intros (i & Hi & H). apply (BV i), pushes_box_iff in H.
      destruct H as (_ & Ex & Ey & F). split; [|exact F]. now exists i.
  - intros i Hi P H. apply (BV i) in H.
    pose proof H as H'. apply pushes_box_iff in H'.
    destruct H' as (_ & Ex & Ey & F).
    assert (M : move_possible b s = true).
    { apply (move_possible_push b s P). split; [|exact F].
      apply cell_has_box_iff. now exists i. }
    rewrite M, Ex, Ey. now split.
  - intros P i. fold (next_box_x b s i) (next_box_y b s i).
    destruct (next_box_value b s i) as [-> ->].
    unfold pushes_box. rewrite P. now split.
Qed.

Lemma player_and_boxes_agree_witness :
  (exists text, snd (generate_smv_model round_trip_parsed) = Ok text)
  /\ eval_cases 5 3 (init_state round_trip_parsed (1, 1) Move_R)
       (player_x_cases (walls round_trip_parsed) 1)
     = Some 2.
Proof.
  destruct (player_and_boxes_agree round_trip_parsed
              (init_state round_trip_parsed (1, 1) Move_R))
    as (T & _ & H & _).
  split; [eexists; apply (T (1, 1)); reflexivity|].
  destruct (H 1) as [Hx _];
    [cbn; now left | reflexivity | reflexivity | exact Hx].
Defined.

(** ** States of the game *)

Lemma state_ok_step b s m' : state_ok b s -> state_ok b (step b s m').
Proof.
  intros (Hin & Hwall & Hnobox & Hboxes & Hdist).
  destruct (step_value b s m') as (Epx & Epy & Ebx & Eby & _).
  pose proof (delta_unit (move s)) as D. cbv zeta in D.
  fold (dx s) (dy s) in D.
  (* a box in range that is pushed makes the move possible *)
  assert (PM : forall i, In i (range1 (List.length (boxes b))) ->
                 pushes_box b s i = true -> move_possible b s = true).
  { intros i Hi H. apply pushes_box_iff in H.
    destruct H as (P & Ex & Ey & F).
    apply (move_possible_push b s P). split; [|exact F].
    apply cell_has_box_iff. now exists i. }
  (* a box in range that is not pushed is not in front of a push *)
  assert (NP : forall i, In i (range1 (List.length (boxes b))) ->
                 pushes_box b s i = false -> is_push (move s) = true ->
                 move_possible b s = true ->
                 ~ (box_x s i = (player_x s + dx s)%Z
                    /\ box_y s i = (player_y s + dy s)%Z)).
  { intros i Hi H P M [Ex Ey].
    apply (move_possible_push b s P) in M. destruct M as [_ F].
    assert (pushes_box b s i = true); [|congruence].
    apply pushes_box_iff. auto. }
  (* the landing cell of a pushed box *)
  assert (LAND : forall i, pushes_box b s i = true ->
                   cell_in_bounds b (box_x s i + dx s) (box_y s i + dy s)
                   = true
                   /\ cell_is_wall b (box_x s i + dx s) (box_y s i + dy s)
                      = false
                   /\ cell_has_box b s (box_x s i + dx s) (box_y s i + dy s)
                      = false).
  { intros i H. apply pushes_box_iff in H. destruct H as (_ & Ex & Ey & F).
    apply cell_free_iff in F. rewrite Ex, Ey.
    replace (player_x s + dx s + dx s)%Z with (player_x s + 2 * dx s)%Z
      by lia.
    replace (player_y s + dy s + dy s)%Z with (player_y s + 2 * dy s)%Z
      by lia.
    exact F. }
  (* where the player goes *)
  assert (PL : cell_in_bounds b (player_x (step b s m'))
                 (player_y (step b s m')) = true
               /\ cell_is_wall b (player_x (step b s m'))
                    (player_y (step b s m')) = false).
  { rewrite Epx, Epy. destruct (move_possible b s) eqn:M; [|now split].
    destruct (is_push (move s)) eqn:P.
    - apply (move_possible_push b s P) in M. destruct M as [M _].
      apply cell_has_box_iff in M. destruct M as (i & Hi & Ex & Ey).
      rewrite <- Ex, <- Ey. now apply Hboxes.
    - rewrite (move_possible_walk b s P) in M. apply cell_free_iff in M.
      tauto. }
  destruct PL as [PL1 PL2].
  split; [exact PL1|]. split; [exact PL2|]. split; [|split].
  - (* the player is on no box *)
    apply not_true_iff_false. intro H. apply cell_has_box_iff in H.
    destruct H as (i & Hi & Ex & Ey).
    rewrite Ebx, Epx in Ex. rewrite Eby, Epy in Ey.
    destruct (pushes_box b s i) eqn:Q.
    + rewrite (PM i Hi Q) in Ex, Ey. apply pushes_box_iff in Q.
      destruct Q as (_ & Qx & Qy & _). lia.
    + destruct (move_possible b s) eqn:M.
      * destruct (is_push (move s)) eqn:P.
        -- apply (NP i Hi Q eq_refl eq_refl). now split.
        -- rewrite (move_possible_walk b s P) in M.
           apply cell_free_iff in M. destruct M as (_ & _ & M).
           apply not_true_iff_false in M. apply M.
           apply cell_has_box_iff. now exists i.
      * apply not_true_iff_false in Hnobox. apply Hnobox.
        apply cell_has_box_iff. now exists i.
  - (* every box on the board and off the walls *)
    intros i Hi. rewrite Ebx, Eby.
    destruct (pushes_box b s i) eqn:Q; [|now apply Hboxes].
    destruct (LAND i Q) as (L1 & L2 & _). now split.
  - (* no two boxes on one cell *)
    intros i j Hi Hj. rewrite !Ebx, !Eby.
    destruct (pushes_box b s i) eqn:Qi, (pushes_box b s j) eqn:Qj.
    + intros Ex Ey. apply Hdist; try assumption; lia.
    + intros Ex Ey. exfalso. destruct (LAND i Qi) as (_ & _ & L).
      apply not_true_iff_false in L. apply L.
      apply cell_has_box_iff. exists j. auto.
    + intros Ex Ey. exfalso. destruct (LAND j Qj) as (_ & _ & L).
      apply not_true_iff_false in L. apply L.
      apply cell_has_box_iff. exists i. auto.
    + now apply Hdist.
Qed.

Lemma range1_In n i :
  In i (range1 n) <-> exists k, i = Z.of_nat k /\ (1 <= k <= n)%nat.
Proof.
  unfold range1. rewrite in_map_iff. split.
  - intros (k & <- & H). apply in_seq in H. exists k. split; [reflexivity|].
    lia.
  - intros (k & -> & H). exists k. split; [reflexivity|]. apply in_seq. lia.
Qed.

Lemma find_enumerate {A : Type} (d : A) (l : list A) : forall start j,
  (j < List.length l)%nat ->
  find (fun ia : Z * A => (fst ia =? start + Z.of_nat j)%Z)
       (enumerate start l)
  = Some ((start + Z.of_nat j)%Z, nth j l d).
Proof.
  induction l as [|a l IH]; intros start j H; [cbn in H; lia|].
  cbn [enumerate find fst]. destruct j as [|j].
  - replace (start + Z.of_nat 0)%Z with start by lia.
    now rewrite Z.eqb_refl.
  - replace (start =? start + Z.of_nat (S j))%Z with false
      by (symmetry; apply Z.eqb_neq; lia).
    replace (start + Z.of_nat (S j))%Z with (start + 1 + Z.of_nat j)%Z
      by lia.
    cbn [nth]. apply IH. cbn in H. lia.
Qed.

(** The initial position of box [k] is the [k]-th parsed box. *)
Lemma init_box_position b p m k :
  (1 <= k <= List.length (boxes b))%nat ->
  (box_x (init_state b p m) (Z.of_nat k),
   box_y (init_state b p m) (Z.of_nat k))
  = nth (k - 1) (boxes b) (0, 0)%Z.
Proof.
  intro H. unfold init_state, lookup_box. cbn [box_x box_y].
  replace (Z.of_nat k) with (1 + Z.of_nat (k - 1))%Z by lia.
  rewrite (find_enumerate (0, 0)%Z (boxes b) 1 (k - 1)) by lia.
  cbn [snd]. now destruct (nth (k - 1) (boxes b) (0, 0)%Z).
Qed.

Lemma on_board_in_bounds b p :
  on_board b p -> cell_in_bounds b (fst p) (snd p) = true.
Proof. intro H. apply cell_in_bounds_iff. exact H. Qed.

(** The initial state of the model of a parsed board is a state of the
    game. *)
Lemma state_ok_init content b p m :
  parse_xsb_board content = Ok b -> player b = Some p ->
  state_ok b (init_state b p m).
Proof.
  intros P Hp.
  destruct (parsed_on_board content b P) as (_ & _ & Bb & Bp).
  destruct (parsed_exclusive content b P) as (Ew & Ep).
  destruct (parsed_scan_order content b P) as (_ & _ & Nb & _).
  assert (BOX : forall i, In i (range1 (List.length (boxes b))) ->
            exists k, i = Z.of_nat k
              /\ (1 <= k <= List.length (boxes b))%nat
              /\ In (box_x (init_state b p m) i, box_y (init_state b p m) i)
                    (boxes b)).
  { intros i Hi. apply range1_In in Hi. destruct Hi as (k & -> & Hk).
    exists k. split; [reflexivity|]. split; [exact Hk|].
    rewrite (init_box_position b p m k Hk). apply nth_In. lia. }
  assert (W : forall q, In q (boxes b) ->
                        cell_is_wall b (fst q) (snd q) = false).
  { intros q Hq. apply not_true_iff_false. intro H.
    apply cell_is_wall_iff in H. rewrite <- surjective_pairing in H.
    destruct (Ew q H) as (_ & N & _). now apply N. }
  unfold state_ok. change (player_x (init_state b p m)) with (fst p).
  change (player_y (init_state b p m)) with (snd p).
  split; [apply on_board_in_bounds, Bp, Hp|]. split.
  { apply not_true_iff_false. intro H. apply cell_is_wall_iff in H.
    rewrite <- surjective_pairing in H.
    destruct (Ew p H) as (_ & _ & N). now apply N. }
  split.
  { apply not_true_iff_false. intro H. apply cell_has_box_iff in H.
    destruct H as (i & Hi & Ex & Ey).
    destruct (BOX i Hi) as (k & _ & _ & Hin).
    rewrite Ex, Ey, <- surjective_pairing in Hin. now apply (Ep p Hp). }
  split.
  - intros i Hi. destruct (BOX i Hi) as (k & _ & _ & Hin). split.
    + apply (on_board_in_bounds b _ (Bb _ Hin)).
    + apply (W _ Hin).
  - intros i j Hi Hj Ex Ey.
    apply range1_In in Hi. destruct Hi as (ki & -> & Hki).
    apply range1_In in Hj. destruct Hj as (kj & -> & Hkj).
    pose proof (init_box_position b p m ki Hki) as Pi.
    pose proof (init_box_position b p m kj Hkj) as Pj.
    rewrite Ex, Ey, Pj in Pi.
    apply (proj1 (NoDup_nth (boxes b) (0, 0)%Z) Nb) in Pi; lia.
Qed.

Lemma flat_map_agree {A B : Type} (f g : A -> list B) (l : list A) :
  (forall a, In a l -> f a = g a) -> flat_map f l = flat_map g l.
Proof.
  induction l as [|a l IH]; intro H; [reflexivity|]. cbn [flat_map].
  rewrite (H a (or_introl eq_refl)), IH; [reflexivity|].
  intros a' Ha'. apply H. now right.
Qed.

Lemma flat_map_of_map {A B C : Type} (h : A -> B) (g : B -> list C)
  (l : list A) :
  flat_map g (map h l) = flat_map (fun a => g (h a)) l.
Proof.
  induction l as [|a l IH]; [reflexivity|]. cbn [map flat_map].
  now rewrite IH.
Qed.

Lemma enumerate_fst {A : Type} (l : list A) : forall start,
  map fst (enumerate start l)
  = map (fun k => (start + Z.of_nat k)%Z) (seq 0 (List.length l)).
Proof.
  induction l as [|a l IH]; intro start; [reflexivity|].
  cbn [enumerate map List.length seq fst]. f_equal; [lia|].
  rewrite IH, <- seq_shift, map_map. apply map_ext. intro k. lia.
Qed.

Lemma enumerate_fst_NoDup {A : Type} (l : list A) start :
  NoDup (map fst (enumerate start l)).
Proof.
  rewrite enumerate_fst. apply Finite.Injective_map_NoDup.
  - intros x y H. lia.
  - apply seq_NoDup.
Qed.

Lemma enumerate_range1 {A : Type} (l : list A) :
  map fst (enumerate 1 l) = range1 (List.length l).
Proof.
  rewrite enumerate_fst. unfold range1.
  rewrite <- seq_shift, map_map. apply map_ext. intro k. lia.
Qed.

(** The [init] lines print the values of [init_state]. *)
Lemma init_lines_of_init_state b p m :
  (init_player_lines p ++ init_box_lines (boxes b))%list
  = ([ ("    init(player_x) := "
               ++ str (player_x (init_state b p m)) ++ ";")%string;
       ("    init(player_y) := "
               ++ str (player_y (init_state b p m)) ++ ";")%string ]
     ++ flat_map
          (fun i : Z =>
             [ ("    init(box_x[" ++ str i ++ "]) := "
                       ++ str (box_x (init_state b p m) i) ++ ";")%string;
               ("    init(box_y[" ++ str i ++ "]) := "
                       ++ str (box_y (init_state b p m) i) ++ ";")%string ])
          (range1 (List.length (boxes b))))%list.
Proof.
  f_equal.
  rewrite <- enumerate_range1, flat_map_of_map. unfold init_box_lines.
  apply flat_map_agree. intros ib Hib.
  assert (F : find (fun jb : Z * (Z * Z) => (fst jb =? fst ib)%Z)
                   (enumerate 1 (boxes b)) = Some ib).
  { pose proof (enumerate_fst_NoDup (boxes b) 1) as N.
    revert N Hib. generalize (enumerate 1 (boxes b)). intro el.
    induction el as [|jb el IH]; intros N Hib; [destruct Hib|].
    cbn [find]. cbn [map] in N. apply NoDup_cons_iff in N.
    destruct N as [N1 N2]. destruct Hib as [-> | Hib].
    - now rewrite Z.eqb_refl.
    - replace (fst jb =? fst ib)%Z with false; [now apply IH|].
      symmetry. apply Z.eqb_neq. intro E. apply N1. rewrite E.
      now apply in_map. }
  unfold init_state, lookup_box. cbn [box_x box_y]. rewrite F. reflexivity.
Qed.

(** X11. For a parsed board with an agent, the text returned is the one
    below: its [init] lines print the values of [init_state], its [next]
    case expressions are the prints of [player_x_cases], [player_y_cases],
    [box_x_cases] and [box_y_cases], and a step gives every variable the
    value of its case expression.  Every state reached from the initial
    assignments by such steps is a state of the game: the player and the
    boxes 1 to [num_boxes] are within the board and off the walls, the
    player is on no box, and no two boxes share a cell. *)
Theorem reachable_states_ok (content : string) (b : Board) (p : Z * Z) :
  parse_xsb_board content = Ok b -> player b = Some p ->
  let n := List.length (boxes b) in
  snd (generate_smv_model b)
  = Ok (String.concat nl
          (header_lines (width b) (height b) n
           ++ init_player_lines p
           ++ init_box_lines (boxes b) ++ [""]
           ++ (render_next PlayerX (player_x_cases (walls b) n) ++ [""])
           ++ (render_next PlayerY (player_y_cases (walls b) n) ++ [""])
           ++ flat_map
                (fun i =>
                   render_next (BoxX i) (box_x_cases (walls b) n i)
                   ++ render_next (BoxY i) (box_y_cases (walls b) n i)
                   ++ [""])
                (range1 n)
           ++ define_lines (sort_targets (targets b)) n
           ++ ltlspec_lines)%list)
  /\ (forall m,
        (init_player_lines p ++ init_box_lines (boxes b))%list
        = ([ ("    init(player_x) := "
               ++ str (player_x (init_state b p m)) ++ ";")%string;
             ("    init(player_y) := "
               ++ str (player_y (init_state b p m)) ++ ";")%string ]
           ++ flat_map
                (fun i : Z =>
                   [ ("    init(box_x[" ++ str i ++ "]) := "
                       ++ str (box_x (init_state b p m) i) ++ ";")%string;
                     ("    init(box_y[" ++ str i ++ "]) := "
                       ++ str (box_y (init_state b p m) i) ++ ";")%string ])
                (range1 n))%list)
  /\ (forall s m',
        let value := eval_cases (width b) (height b) s in
        player_x (step b s m')
        = value_or (value (player_x_cases (walls b) n)) (player_x s)
        /\ player_y (step b s m')
           = value_or (value (player_y_cases (walls b) n)) (player_y s)
        /\ (forall i, box_x (step b s m') i
              = value_or (value (box_x_cases (walls b) n i)) (box_x s i))
        /\ (forall i, box_y (step b s m') i
              = value_or (value (box_y_cases (walls b) n i)) (box_y s i)))
  /\ (forall s, reachable b p s -> state_ok b s).
Proof.
  intros P Hp. cbv zeta. split; [exact (generate_rendered b p Hp)|].
  split; [intro m; apply init_lines_of_init_state|].
  split; [intros s m'; repeat split|].
  intros s R. induction R as [m | s m' R IH].
  - exact (state_ok_init content b p m P Hp).
  - now apply state_ok_step.
Qed.

Lemma reachable_states_ok_witness :
  state_ok round_trip_parsed
    (step round_trip_parsed
          (init_state round_trip_parsed (1, 1) Move_R) Move_R).
Proof.
  destruct (reachable_states_ok round_trip_board round_trip_parsed (1, 1))
    as (_ & _ & _ & H).
  - vm_compute. reflexivity.
  - reflexivity.
  - apply H. apply reach_step, reach_init.
Defined.

(** X12. For a board with a player, the text returned is the one below, its
    [next] case expressions the prints of [player_x_cases],
    [player_y_cases], [box_x_cases] and [box_y_cases]; a step gives every
    variable the value of its case expression.  Whatever the board, a
    step keeps the states of the game: the player never enters a wall, a
    box or a cell off the board, a box is pushed only onto a free cell,
    and boxes never come to share a cell. *)
Theorem step_keeps_state_ok (b : Board) (s : State) (m' : Move) :
  let n := List.length (boxes b) in
  let value := eval_cases (width b) (height b) s in
  (forall p, player b = Some p ->
     snd (generate_smv_model b)
     = Ok (String.concat nl
             (header_lines (width b) (height b) n
              ++ init_player_lines p
              ++ init_box_lines (boxes b) ++ [""]
              ++ (render_next PlayerX (player_x_cases (walls b) n) ++ [""])
              ++ (render_next PlayerY (player_y_cases (walls b) n) ++ [""])
              ++ flat_map
                   (fun i =>
                      render_next (BoxX i) (box_x_cases (walls b) n i)
                      ++ render_next (BoxY i) (box_y_cases (walls b) n i)
                      ++ [""])
                   (range1 n)
              ++ define_lines (sort_targets (targets b)) n
              ++ ltlspec_lines)%list))
  /\ player_x (step b s m')
     = value_or (value (player_x_cases (walls b) n)) (player_x s)
  /\ player_y (step b s m')
     = value_or (value (player_y_cases (walls b) n)) (player_y s)
  /\ (forall i, box_x (step b s m') i
        = value_or (value (box_x_cases (walls b) n i)) (box_x s i))
  /\ (forall i, box_y (step b s m') i
        = value_or (value (box_y_cases (walls b) n i)) (box_y s i))
  /\ (state_ok b s -> state_ok b (step b s m')).
Proof.
  cbv zeta. split; [exact (generate_rendered b)|].
  repeat (split; [reflexivity|]). exact (state_ok_step b s m').
Qed.

Lemma step_keeps_state_ok_witness :
  state_ok round_trip_parsed
    (step round_trip_parsed
          (init_state round_trip_parsed (1, 1) Move_R) Move_l).
Proof.
  apply step_keeps_state_ok.
  apply (state_ok_init round_trip_board); [vm_compute|]; reflexivity.
Defined.

(** ** The order of the wall set *)

Lemma cell_free_walls b ws s x y :
  Permutation ws (walls b) ->
  cell_free (with_walls b ws) s x y = cell_free b s x y.
Proof.
  intro P. unfold cell_free, cell_is_wall, cell_in_bounds, cell_has_box.
  cbn [with_walls walls width height boxes].
  now rewrite (existsb_Permutation _ _ _ P).
Qed.

Lemma move_possible_walls b ws s :
  Permutation ws (walls b) ->
  move_possible (with_walls b ws) s = move_possible b s.
Proof.
  intro P. unfold move_possible. rewrite !(cell_free_walls b ws s _ _ P).
  reflexivity.
Qed.

Lemma pushes_box_walls b ws s i :
  Permutation ws (walls b) ->
  pushes_box (with_walls b ws) s i = pushes_box b s i.
Proof.
  intro P. unfold pushes_box. now rewrite (cell_free_walls b ws s _ _ P).
Qed.

(** X13. The order in which the wall set is iterated changes the text of
    the model, not what it means.  For every order [ws] of the walls of a
    board with a player, the text returned is the one below, its case
    expressions printed with [gen_not_wall] running over [ws]; in every
    state the value of each of them is the value of the one printed for
    the walls in the order of the board. *)
Theorem wall_order_is_immaterial (b : Board) (ws : list (Z * Z))
  (s : State) :
  Permutation ws (walls b) ->
  let n := List.length (boxes b) in
  let value := eval_cases (width b) (height b) s in
  (forall p, player b = Some p ->
     snd (generate_smv_model (with_walls b ws))
     = Ok (String.concat nl
             (header_lines (width b) (height b) n
              ++ init_player_lines p
              ++ init_box_lines (boxes b) ++ [""]
              ++ (render_next PlayerX (player_x_cases ws n) ++ [""])
              ++ (render_next PlayerY (player_y_cases ws n) ++ [""])
              ++ flat_map
                   (fun i =>
                      render_next (BoxX i) (box_x_cases ws n i)
                      ++ render_next (BoxY i) (box_y_cases ws n i)
                      ++ [""])
                   (range1 n)
              ++ define_lines (sort_targets (targets b)) n
              ++ ltlspec_lines)%list))
  /\ (forall ex ey,
        gen_not_wall (render_term ex) (render_term ey) ws
        = render (not_wall ex ey ws)
        /\ eval (width b) (height b) s (not_wall ex ey ws)
           = eval (width b) (height b) s (not_wall ex ey (walls b)))
  /\ value (player_x_cases ws n) = value (player_x_cases (walls b) n)
  /\ value (player_y_cases ws n) = value (player_y_cases (walls b) n)
  /\ (forall i, value (box_x_cases ws n i)
                = value (box_x_cases (walls b) n i))
  /\ (forall i, value (box_y_cases ws n i)
                = value (box_y_cases (walls b) n i)).
Proof.
  intro P. cbv zeta.
  split; [exact (generate_rendered (with_walls b ws))|].
  split.
  { intros ex ey. split; [symmetry; apply render_not_wall|].
    rewrite (eval_not_wall b s ex ey).
    change (eval (width b) (height b) s (not_wall ex ey ws))
      with (eval (width (with_walls b ws)) (height (with_walls b ws)) s
              (not_wall ex ey (walls (with_walls b ws)))).
    rewrite (eval_not_wall (with_walls b ws) s ex ey). f_equal.
    unfold cell_is_wall. cbn [with_walls walls].
    apply (existsb_Permutation _ _ _ P). }
  change (eval_cases (width b) (height b) s (player_x_cases ws
            (List.length (boxes b))))
    with (next_player_x (with_walls b ws) s).
  change (eval_cases (width b) (height b) s (player_y_cases ws
            (List.length (boxes b))))
    with (next_player_y (with_walls b ws) s).
  fold (next_player_x b s) (next_player_y b s).
  destruct (next_player_value (with_walls b ws) s) as [-> ->].
  destruct (next_player_value b s) as [-> ->].
  rewrite (move_possible_walls b ws s P).
  split; [reflexivity|]. split; [reflexivity|].
  split; intro i.
  - change (eval_cases (width b) (height b) s (box_x_cases ws
              (List.length (boxes b)) i))
      with (next_box_x (with_walls b ws) s i).
    fold (next_box_x b s i).
    rewrite (proj1 (next_box_value (with_walls b ws) s i)),
      (proj1 (next_box_value b s i)).
    now rewrite (pushes_box_walls b ws s i P).
  - change (eval_cases (width b) (height b) s (box_y_cases ws
              (List.length (boxes b)) i))
      with (next_box_y (with_walls b ws) s i).
    fold (next_box_y b s i).
    rewrite (proj2 (next_box_value (with_walls b ws) s i)),
      (proj2 (next_box_value b s i)).
    now rewrite (pushes_box_walls b ws s i P).
Qed.

Lemma wall_order_is_immaterial_witness :
  eval_cases 5 3 (init_state round_trip_parsed (1, 1) Move_R)
    (player_x_cases (rev (walls round_trip_parsed)) 1)
  = eval_cases 5 3 (init_state round_trip_parsed (1, 1) Move_R)
      (player_x_cases (walls round_trip_parsed) 1).
Proof.
  destruct (wall_order_is_immaterial round_trip_parsed
              (rev (walls round_trip_parsed))
              (init_state round_trip_parsed (1, 1) Move_R))
    as (_ & _ & H & _).
  - apply Permutation_sym, Permutation_rev.
  - exact H.
Defined.

(** ** What the goal says *)

Lemma forallb_on_targets b s l :
  forallb (eval (width b) (height b) s) (map on_target l) = true
  <-> forall it, In it l ->
        box_x s (fst it) = fst (snd it) /\ box_y s (fst it) = snd (snd it).
Proof.
  rewrite forallb_forall. split.
  - intros H it Hit. specialize (H (on_target it) (in_map _ _ _ Hit)).
    cbn in H. apply andb_prop in H. destruct H as [H1 H2].
    apply Z.eqb_eq in H1, H2. auto.
  - intros H e He. apply in_map_iff in He. destruct He as (it & <- & Hit).
    destruct (H it Hit) as [H1 H2]. cbn. rewrite H1, H2, !Z.eqb_refl.
    reflexivity.
Qed.

Lemma enumerate_nth {A : Type} (d : A) (l : list A) : forall start ia,
  In ia (enumerate start l)
  <-> exists j, (j < List.length l)%nat
                /\ ia = ((start + Z.of_nat j)%Z, nth j l d).
Proof.
  induction l as [|a l IH]; intros start ia; cbn [enumerate In List.length].
  - split; [tauto | intros (j & H & _); lia].
  - rewrite IH. split.
    + intros [<- | (j & Hj & ->)].
      * exists 0%nat. split; [lia|]. cbn. f_equal. lia.
      * exists (S j). split; [lia|]. cbn [nth]. f_equal. lia.
    + intros ([|j] & Hj & ->).
      * left. cbn. f_equal. lia.
      * right. exists j. split; [lia|]. cbn [nth]. f_equal. lia.
Qed.

(** X14. When the board has a box and a target, what stands after [win :=]
    in the text is the print of an expression that holds in a state
    exactly when, for every [k] from 1 to the minimum of the number of
    boxes and the number of targets, box [k] is at the [k]-th target of
    the sorted targets.  Boxes beyond the number of targets are not
    mentioned. *)
Theorem goal_meaning (b : Board) (s : State) (c : expr) (cs : list expr) :
  win_conds (sort_targets (targets b)) (List.length (boxes b)) = c :: cs ->
  String.concat " & "
    (win_conditions (sort_targets (targets b)) (List.length (boxes b)))
  = render (conj c cs)
  /\ (eval (width b) (height b) s (conj c cs) = true
      <-> forall k,
            (1 <= k <= Nat.min (List.length (boxes b))
                               (List.length (targets b)))%nat ->
            (box_x s (Z.of_nat k), box_y s (Z.of_nat k))
            = nth (k - 1) (sort_targets (targets b)) (0, 0)%Z).
Proof.
  intro E. split.
  - rewrite <- render_win_conds, E. symmetry. apply render_conj.
  - rewrite eval_conj.
    change (eval (width b) (height b) s c
            && forallb (eval (width b) (height b) s) cs)
      with (forallb (eval (width b) (height b) s) (c :: cs)).
    rewrite <- E. unfold win_conds. rewrite forallb_on_targets.
    set (ts := sort_targets (targets b)).
    assert (L : List.length (firstn (List.length (boxes b)) ts)
                = Nat.min (List.length (boxes b)) (List.length (targets b))).
    { rewrite length_firstn. unfold ts. now rewrite sort_targets_length. }
    split.
    + intros H k Hk.
      specialize (H (Z.of_nat k, nth (k - 1) ts (0, 0)%Z)).
      cbn [fst snd] in H. destruct H as [H1 H2].
      * apply (enumerate_nth (0, 0)%Z). exists (k - 1)%nat.
        split; [lia|]. f_equal; [lia|].
        rewrite nth_firstn.
        replace (k - 1 <? List.length (boxes b))%nat with true
          by (symmetry; apply Nat.ltb_lt; lia).
        reflexivity.
      * rewrite H1, H2. now destruct (nth (k - 1) ts (0, 0)%Z).
    + intros H it Hit. apply (enumerate_nth (0, 0)%Z) in Hit.
      destruct Hit as (j & Hj & ->). cbn [fst snd].
      specialize (H (S j)). replace (1 + Z.of_nat j)%Z with (Z.of_nat (S j))
        by lia.
      assert (Hk : (1 <= S j <= Nat.min (List.length (boxes b))
                                       (List.length (targets b)))%nat)
        by lia.
      specialize (H Hk). replace (S j - 1)%nat with j in H by lia.
      rewrite nth_firstn.
      replace (j <? List.length (boxes b))%nat with true
        by (symmetry; apply Nat.ltb_lt; lia).
      destruct (nth j ts (0, 0)%Z) as [tx ty].
      injection H as H1 H2. cbn [fst snd]. now split.
Qed.

Lemma goal_meaning_witness :
  String.concat " & "
    (win_conditions (sort_targets (targets round_trip_parsed))
                    (List.length (boxes round_trip_parsed)))
  = "(box_x[1] = 3 & box_y[1] = 1)".
Proof.
  exact (proj1 (goal_meaning round_trip_parsed
                  (init_state round_trip_parsed (1, 1) Move_R)
                  (on_target (1, (3, 1))) [] eq_refl)).
Defined.

(** ** The decoder: what it returns *)

Lemma re_search_moves s : forall m,
  re_search s = Some m -> all_chars is_move_char m = true /\ m <> "".
Proof.
  induction s as [|c s IH]; intros m H; cbn [re_search] in H.
  - destruct (match_here "") eqn:E; [|discriminate]. injection H as ->.
    destruct (match_here_Some _ _ E) as (_ & _ & _ & _ & _ & _ & A & N).
    now split.
  - destruct (match_here (String c s)) eqn:E.
    + injection H as ->.
      destruct (match_here_Some _ _ E) as (_ & _ & _ & _ & _ & _ & A & N).
      now split.
    + now apply IH.
Qed.

Lemma prefix_chars p : forall s c,
  String.prefix p s = true -> In c (list_ascii_of_string p) ->
  In c (list_ascii_of_string s).
Proof.
  induction p as [|a p IH]; intros s c H Hc; [destruct Hc|].
  destruct s as [|a' s]; [discriminate|]. cbn [String.prefix] in H.
  destruct (ascii_dec a a') as [<- | N]; [|discriminate].
  destruct Hc as [<- | Hc]; [now left | right]. now apply IH.
Qed.

Lemma contains_chars p s : forall c,
  contains p s = true -> In c (list_ascii_of_string p) ->
  In c (list_ascii_of_string s).
Proof.
  induction s as [|a s IH]; intros c H Hc; cbn [contains] in H.
  - rewrite orb_false_r in H. eapply prefix_chars; eassumption.
  - apply orb_prop in H. destruct H as [H | H].
    + eapply prefix_chars; eassumption.
    + right. now apply IH.
Qed.

Lemma alphabet_chars c :
  In c (list_ascii_of_string "lurdLURD") -> is_move_char c = true.
Proof.
  cbn. intros [<- | [<- | [<- | [<- | [<- | [<- | [<- | [<- | []]]]]]]]];
    reflexivity.
Qed.

Lemma scan_trace_line_moves line v :
  In v (scan_trace_line line) -> all_chars is_move_char v = true.
Proof.
  unfold scan_trace_line.
  destruct (contains "move =" line); [|intros []].
  destruct (contains (assigned_value line) "lurdLURD") eqn:E; [|intros []].
  intros [<- | []]. apply all_chars_forall. intros c Hc.
  apply alphabet_chars. eapply contains_chars; eassumption.
Qed.

Lemma all_chars_app f s1 s2 :
  all_chars f (s1 ++ s2) = all_chars f s1 && all_chars f s2.
Proof. unfold all_chars. now rewrite chars_app, forallb_app. Qed.

Lemma concat_empty_sep ls :
  String.concat "" ls = fold_right String.append "" ls.
Proof.
  induction ls as [|l ls IH]; [reflexivity|].
  cbn [fold_right]. rewrite <- IH. destruct ls as [|l' ls].
  - cbn. now rewrite append_nil_r.
  - reflexivity.
Qed.

Lemma all_chars_concat f ls :
  (forall v, In v ls -> all_chars f v = true) ->
  all_chars f (String.concat "" ls) = true.
Proof.
  rewrite concat_empty_sep. induction ls as [|l ls IH]; intro H;
    [reflexivity|].
  cbn [fold_right]. rewrite all_chars_app, (H l (or_introl eq_refl)).
  apply IH. intros v Hv. apply H. now right.
Qed.

(** X15. Whatever the text, a sequence the decoder returns is made of the
    eight move characters alone; one it takes from a solution annotation
    is not empty. *)
Theorem decoded_moves_in_alphabet (text m : string) :
  extract_solution text = Some m ->
  all_chars is_move_char m = true
  /\ (has_annotation text -> m <> "").
Proof.
  unfold extract_solution. destruct (re_search text) as [r|] eqn:E.
  - intro H. injection H as <-.
    destruct (re_search_moves text r E) as [A N]. now split.
  - intro H. split.
    + destruct (lurds text) as [|v vs] eqn:L; [discriminate|].
      injection H as <-.
      change (all_chars is_move_char (String.concat "" (v :: vs)) = true).
      apply all_chars_concat. intros w Hw.
      rewrite <- L in Hw. unfold lurds in Hw. apply in_flat_map in Hw.
      destruct Hw as (line & _ & Hw). eapply scan_trace_line_moves, Hw.
    + intro A. apply re_search_annotation in A. congruence.
Qed.

Lemma decoded_moves_in_alphabet_witness :
  all_chars is_move_char "ur" = true.
Proof.
  apply (decoded_moves_in_alphabet "move = ur" "ur"). reflexivity.
Defined.

(** ** The decoder on a trace *)

Lemma split_no_sep sep s :
  ~ In sep (list_ascii_of_string s) -> split sep s = [s].
Proof.
  induction s as [|c s IH]; intro N; [reflexivity|].
  cbn [split]. replace (Ascii.eqb c sep) with false.
  - rewrite IH; [reflexivity|]. intro H. apply N. now right.
  - symmetry. apply Ascii.eqb_neq. intros ->. apply N. now left.
Qed.

Lemma split_app_sep sep s rest :
  ~ In sep (list_ascii_of_string s) ->
  split sep (s ++ String sep rest) = s :: split sep rest.
Proof.
  induction s as [|c s IH]; intro N.
  - cbn [append split]. now rewrite Ascii.eqb_refl.
  - cbn [append split]. replace (Ascii.eqb c sep) with false.
    + rewrite IH; [reflexivity|]. intro H. apply N. now right.
    + symmetry. apply Ascii.eqb_neq. intros ->. apply N. now left.
Qed.

Lemma split_concat_lines (lines : list string) l :
  (forall x, In x (l :: lines) -> ~ In LF (list_ascii_of_string x)) ->
  split LF (String.concat nl (l :: lines)) = l :: lines.
Proof.
  revert l. induction lines as [|l' lines IH]; intros l H.
  - cbn [String.concat]. apply split_no_sep, H. now left.
  - change (String.concat nl (l :: l' :: lines))
      with (l ++ String LF (String.concat nl (l' :: lines))).
    rewrite split_app_sep by (apply H; now left).
    rewrite IH; [reflexivity|]. intros x Hx. apply H. now right.
Qed.

Lemma scan_move_line c :
  is_move_char c = true ->
  scan_trace_line (trace_line (inr c)) = [String c ""]
  /\ ~ In LF (list_ascii_of_string (trace_line (inr c))).
Proof.
  unfold is_move_char, in_chars. cbn [existsb]. intro H.
  repeat (apply orb_prop in H; destruct H as [H | H];
          [apply Ascii.eqb_eq in H; subst c; split;
           [reflexivity | cbn; intuition discriminate]|]).
  discriminate.
Qed.

Lemma scan_other_line s :
  contains "move =" s = false -> scan_trace_line s = [].
Proof. unfold scan_trace_line. now intros ->. Qed.

Lemma scan_trace_lines (xs : list (string + ascii)) :
  (forall s, In (inl s) xs ->
     contains "move =" s = false /\ ~ In LF (list_ascii_of_string s)) ->
  (forall c, In (inr c) xs -> is_move_char c = true) ->
  flat_map scan_trace_line (map trace_line xs)
  = map (fun c => String c "") (trace_moves xs)
  /\ forall x, In x (map trace_line xs) ->
               ~ In LF (list_ascii_of_string x).
Proof.
  induction xs as [|x xs IH]; intros Ho Hm.
  - split; [reflexivity | intros x []].
  - destruct IH as [IH1 IH2].
    { intros s Hs. apply Ho. now right. }
    { intros c Hc. apply Hm. now right. }
    destruct x as [s | c].
    + destruct (Ho s (or_introl eq_refl)) as [C N].
      change (trace_moves (inl s :: xs)) with (trace_moves xs).
      cbn [map flat_map trace_line]. rewrite (scan_other_line s C), IH1.
      split; [reflexivity|].
      intros x [<- | Hx]; [exact N | now apply IH2].
    + destruct (scan_move_line c (Hm c (or_introl eq_refl))) as [C N].
      change (trace_moves (inr c :: xs)) with (c :: trace_moves xs).
      cbn [map flat_map]. rewrite C, IH1.
      split; [reflexivity|].
      intros x [<- | Hx]; [exact N | now apply IH2].
Qed.

Lemma lurds_trace (ls : list (string + ascii)) :
  (forall s, In (inl s) ls ->
     contains "move =" s = false /\ ~ In LF (list_ascii_of_string s)) ->
  (forall c, In (inr c) ls -> is_move_char c = true) ->
  lurds (trace_text ls) = map (fun c => String c "") (trace_moves ls).
Proof.
  intros Ho Hm. unfold lurds, trace_text.
  destruct (scan_trace_lines ls Ho Hm) as [H1 H2].
  destruct ls as [|l ls]; [reflexivity|].
  cbn [map] in *. rewrite split_concat_lines by exact H2. exact H1.
Qed.

Lemma concat_singletons (ms : list ascii) :
  String.concat "" (map (fun c => String c "") ms) = string_of_list_ascii ms.
Proof.
  rewrite concat_empty_sep. induction ms as [|c ms IH]; [reflexivity|].
  cbn. now rewrite IH.
Qed.

(** X16. A trace read back.  For a text made of lines that either assign
    one move character to [move], as the checker prints it, or hold no
    [move =] at all, and that holds no solution annotation, the decoder
    returns the assigned characters in the order of the lines, and [None]
    when no line assigns one. *)
Theorem trace_round_trip (ls : list (string + ascii)) :
  (forall s, In (inl s) ls ->
     contains "move =" s = false /\ ~ In LF (list_ascii_of_string s)) ->
  (forall c, In (inr c) ls -> is_move_char c = true) ->
  ~ has_annotation (trace_text ls) ->
  extract_solution (trace_text ls)
  = match trace_moves ls with
    | [] => None
    | ms => Some (string_of_list_ascii ms)
    end.
Proof.
  intros Ho Hm NA. unfold extract_solution.
  destruct (re_search (trace_text ls)) as [r|] eqn:E.
  - exfalso. apply NA, re_search_annotation. congruence.
  - rewrite (lurds_trace ls Ho Hm).
    destruct (trace_moves ls) as [|c ms]; [reflexivity|].
    apply f_equal, (concat_singletons (c :: ms)).
Qed.

Lemma trace_round_trip_witness :
  extract_solution
    (trace_text [inl "-> State: 1.1 <-"; inl "    player_x = 1"; inr "R"%char;
                 inl "-> State: 1.2 <-"; inr "d"%char])
  = Some "Rd".
Proof.
  apply (trace_round_trip
           [inl "-> State: 1.1 <-"; inl "    player_x = 1"; inr "R"%char;
            inl "-> State: 1.2 <-"; inr "d"%char]).
  - intros s [E | [E | [E | [E | [E | []]]]]];
      try discriminate E; injection E as <-;
      (split; [reflexivity | cbn; intuition discriminate]).
  - intros c [E | [E | [E | [E | [E | []]]]]];
      try discriminate E; injection E as <-; reflexivity.
  - intro A. apply re_search_annotation in A. apply A. reflexivity.
Defined.

(** ** The initial assignments *)

(** X17. The [init] lines of the text assign to the player and to each box
    1 to [num_boxes], in this order, the values these variables have in
    [init_state]: the initial states of the model are the states
    [init_state b p m]. *)
Theorem init_lines_fix_init_state (b : Board) (p : Z * Z) (m : Move) :
  let s0 := init_state b p m in
  init_player_lines p
  = [ "    init(player_x) := " ++ str (player_x s0) ++ ";";
      "    init(player_y) := " ++ str (player_y s0) ++ ";" ]
  /\ init_box_lines (boxes b)
     = flat_map
         (fun i : Z =>
            [ "    init(box_x[" ++ str i ++ "]) := " ++ str (box_x s0 i)
                ++ ";";
              "    init(box_y[" ++ str i ++ "]) := " ++ str (box_y s0 i)
                ++ ";" ])
         (range1 (List.length (boxes b))).
Proof.
  cbv zeta. split; [reflexivity|].
  rewrite <- enumerate_range1, flat_map_of_map. unfold init_box_lines.
  apply flat_map_agree. intros ib Hib.
  assert (F : find (fun jb : Z * (Z * Z) => (fst jb =? fst ib)%Z)
                   (enumerate 1 (boxes b)) = Some ib).
  { pose proof (enumerate_fst_NoDup (boxes b) 1) as N.
    revert N Hib. generalize (enumerate 1 (boxes b)). intro el.
    induction el as [|jb el IH]; intros N Hib; [destruct Hib|].
    cbn [find]. cbn [map] in N. apply NoDup_cons_iff in N.
    destruct N as [N1 N2]. destruct Hib as [-> | Hib].
    - now rewrite Z.eqb_refl.
    - replace (fst jb =? fst ib)%Z with false; [now apply IH|].
      symmetry. apply Z.eqb_neq. intro E. apply N1. rewrite E.
      now apply in_map. }
  unfold init_state, lookup_box. cbn [box_x box_y]. rewrite F. reflexivity.
Qed.
